(** * go-exercise: the Last-Traded-Price service, embedded and verified

    The development follows the Go packages of the repository:

    - [domain]   (internal/domain: pair.go, ltp.go)
    - [cache]    (internal/adapters/cache: the in-memory TTL cache)
    - [kraken]   (internal/adapters/kraken/client.go)
    - [service]  (internal/application/service/ltp_service.go)
    - [handler]  (internal/adapters/http/handler.go)

    Go strings are byte strings ([string], one [ascii] per byte); Go maps
    are [gmap]s; a Go [(T, error)] result is a [Res]; the clock, the cache
    and the calls made through the two ports are threaded through an
    explicit [World].  Calls run one at a time: the lock of the cache is
    not modelled. *)

From Stdlib Require Import ZArith String Ascii List Bool Lia.
From Stdlib Require Import Floats.SpecFloat.
From stdpp Require Import gmap strings list fin_maps sorting.

Import ListNotations.
Set Warnings "-clear-no-such-hyp".
Local Open Scope string_scope.
Local Open Scope Z_scope.

(* ===================================================================== *)
(** * Part I. The model                                                   *)
(* ===================================================================== *)

(** ** The Go library functions the code calls *)

(** [strings.ToUpper] and [strings.TrimSpace] work on UTF-8 with the
    Unicode case and white-space tables; the repository only calls them.
    They are taken as an interface, and [ascii_strings] below implements it
    for 7-bit input. *)
Class strings_pkg : Type := {
  ToUpper : string -> string;
  TrimSpace : string -> string
}.

(** [strconv.ParseFloat(s, 64)]: [Some f] for the parsed value, [None] for
    the error result. *)
Definition float64 : Type := spec_float.

Class strconv_pkg : Type := {
  ParseFloat : string -> option float64
}.

(** [strings.Split(s, sep)] for a one-byte separator: the pieces between
    the occurrences of [sep]; never the empty list. *)
Fixpoint Split (s : string) (sep : ascii) : list string :=
  match s with
  | EmptyString => [EmptyString]
  | String c s' =>
      if Ascii.eqb c sep then EmptyString :: Split s' sep
      else match Split s' sep with
           | [] => [String c EmptyString]
           | t :: ts => String c t :: ts
           end
  end.

(** [strings.Join(elems, sep)]. *)
Fixpoint Join (elems : list string) (sep : string) : string :=
  match elems with
  | [] => ""
  | [e] => e
  | e :: rest => e ++ sep ++ Join rest sep
  end.

(** [sort.Slice(x, less)]. On slices of at most twelve elements the Go
    runtime runs the insertion sort below: element [i] sinks towards the
    front while it is [less] than its predecessor.  The sorted prefix is
    kept reversed, so that the predecessor is the head.  (On longer slices
    Go partitions first; the order it gives differs from the one below at
    most among elements that compare equal.) *)
Section Sort.
Context {A : Type} (less : A -> A -> bool).

Fixpoint sink (x : A) (rev_prefix : list A) : list A :=
  match rev_prefix with
  | [] => [x]
  | y :: r => if less x y then y :: sink x r else x :: y :: r
  end.

Definition sort_Slice (x : list A) : list A :=
  rev (fold_left (fun acc e => sink e acc) x []).
End Sort.

(** ** Results and errors

    Every error the code builds with [fmt.Errorf] or [errors.New], with the
    values it formats into the message; [%w] wrapping is a constructor
    argument. *)
Inductive error : Type :=
  (* domain *)
  | ErrInvalidPair (v : string)
      (* "invalid pair: %s. Valid pairs are: BTC/USD, BTC/CHF, BTC/EUR" *)
  | ErrNoValidPair
      (* "at least one valid pair must be specified" *)
  (* service *)
  | ErrInvalidPairs (cause : error)
      (* "invalid pairs: %w" *)
  | ErrFetch (cause : error)
      (* "failed to fetch from external service: %w" *)
  (* kraken *)
  | ErrNoPairs
      (* "no pairs provided" *)
  | ErrNoDataReturned (pair : string)
      (* "no data returned for pair %s" *)
  | ErrCall (cause : string)
      (* "failed to call Kraken API: %w" *)
  | ErrStatus (code : Z)
      (* "kraken API returned status %d" *)
  | ErrReadBody (cause : string)
      (* "failed to read response body: %w" *)
  | ErrUnmarshal (cause : string)
      (* "failed to unmarshal response: %w" *)
  | ErrKrakenAPI (errs : list string)
      (* "kraken API error: %v" *)
  | ErrNoData (pair requested : string)
      (* "no data found for symbol %s (tried %s and variants)" *)
  | ErrInvalidTicker (pair found : string)
      (* "invalid ticker data for symbol %s (found as %s)" *)
  | ErrParseAmount (pair found : string)
      (* "failed to parse amount for %s (found as %s): %w" *)
  (* encoding/json, met by the handler *)
  | ErrUnsupportedValue (f : float64)
      (* "json: unsupported value: %s" *)
  (* an error of another implementation of a port *)
  | ErrOther (msg : string).

Inductive Res (A : Type) : Type :=
  | Ok (a : A)
  | Err (e : error).
Arguments Ok {A} a.
Arguments Err {A} e.

(** ** package domain (pair.go) *)

(** [type Pair struct { value string }] *)
Record Pair : Type := mkPair { Value : string }.

Definition BTCUSD : string := "BTC/USD".
Definition BTCCHF : string := "BTC/CHF".
Definition BTCEUR : string := "BTC/EUR".

(** [var validPairs = map[string]bool{...}]; indexing a Go map at a missing
    key gives the zero value [false]. *)
Definition validPairs : gmap string bool :=
  <[BTCUSD := true]> (<[BTCCHF := true]> (<[BTCEUR := true]> ∅)).

Definition index_bool (m : gmap string bool) (k : string) : bool :=
  match m !! k with Some b => b | None => false end.

Section Parsing.
Context `{strings_pkg}.

Definition NewPair (value : string) : Res Pair :=
  let value := ToUpper (TrimSpace value) in
  if negb (index_bool validPairs value) then Err (ErrInvalidPair value)
  else Ok (mkPair value).

Definition IsValidPair (value : string) : bool :=
  index_bool validPairs (ToUpper (TrimSpace value)).

(** The loop of [ParsePairs] over the split tokens, with its two
    variables [result] and [seen]. *)
Fixpoint ParsePairs_loop (pairs : list string) (result : list Pair)
    (seen : gmap string bool) : Res (list Pair) :=
  match pairs with
  | [] => Ok result
  | p :: rest =>
      match NewPair p with
      | Err e => Err e
      | Ok pr =>
          if negb (index_bool seen (Value pr))
          then ParsePairs_loop rest (result ++ [pr])
                 (<[Value pr := true]> seen)
          else ParsePairs_loop rest result seen
      end
  end.

Definition ParsePairs (pairsStr : string) : Res (list Pair) :=
  if String.eqb pairsStr "" then
    Ok [mkPair BTCUSD; mkPair BTCCHF; mkPair BTCEUR]
  else
    match ParsePairs_loop (Split pairsStr ",") [] ∅ with
    | Err e => Err e
    | Ok result =>
        if (length result =? 0)%nat then Err ErrNoValidPair
        else Ok result
    end.
End Parsing.

(** ** package domain (ltp.go) and package time *)

(** A [time.Time] taken by [time.Now] is its monotonic clock reading in
    nanoseconds; a [time.Duration] is an [int64] count of nanoseconds. *)
Definition Time : Type := Z.
Definition Duration : Type := Z.

Definition Second : Duration := 1000000000.
Definition Minute : Duration := 60 * Second.
Definition minDuration : Duration := - 2 ^ 63.
Definition maxDuration : Duration := 2 ^ 63 - 1.

(** [t.Sub(u)]: the difference, saturated at the ends of [Duration]. *)
Definition Sub (t u : Time) : Duration :=
  let d := t - u in
  if d <? minDuration then minDuration
  else if maxDuration <? d then maxDuration
  else d.

(** [type LTP struct { Pair Pair; Amount float64 }] *)
Record LTP : Type := mkLTP { LTP_Pair : Pair; Amount : float64 }.

(** [type CachedLTP struct { LTP LTP; Timestamp time.Time }] *)
Record CachedLTP : Type := mkCachedLTP { Cached_LTP : LTP; Timestamp : Time }.

(** ** The world a call runs in

    [store] is the map of the one [InMemoryCache] the server creates;
    [clock] gives the successive readings of [time.Now] and [reads] counts
    the readings taken so far; [calls] records, oldest first, the calls the
    service has made through its two ports. *)
Inductive Call : Type :=
  | CallGetLTP (pr : Pair) (found : bool)
  | CallSetLTP (pr : Pair) (ltp : LTP)
  | CallGetTickers (pairs : list Pair).

Record World : Type := mkWorld {
  store : gmap string CachedLTP;
  clock : nat -> Time;
  reads : nat;
  calls : list Call
}.

Definition M (A : Type) : Type := World -> A * World.

Definition ret {A} (a : A) : M A := fun w => (a, w).
Definition bind {A B} (c : M A) (k : A -> M B) : M B :=
  fun w => let (a, w') := c w in k a w'.

Declare Scope go_scope.
Delimit Scope go_scope with go.
Notation "x <- c ;; k" := (bind c (fun x => k))
  (at level 100, c at next level, right associativity) : go_scope.
Notation "c ;;; k" := (bind c (fun _ => k))
  (at level 100, right associativity) : go_scope.
Local Open Scope go_scope.

Definition Now : M Time :=
  fun w => (clock w (reads w),
            mkWorld (store w) (clock w) (S (reads w)) (calls w)).

Definition get_store : M (gmap string CachedLTP) := fun w => (store w, w).

Definition set_store (st : gmap string CachedLTP) : M unit :=
  fun w => (tt, mkWorld st (clock w) (reads w) (calls w)).

Definition record (c : Call) : M unit :=
  fun w => (tt, mkWorld (store w) (clock w) (reads w) (calls w ++ [c])).

(** [time.Since(t)] is [time.Now().Sub(t)]. *)
Definition Since (t : Time) : M Duration :=
  now <- Now ;; ret (Sub now t).

(** [func (c *CachedLTP) IsExpired() bool] *)
Definition IsExpired (c : CachedLTP) : M bool :=
  d <- Since (Timestamp c) ;; ret (Minute <? d).

(** [func NewCachedLTP(ltp LTP) *CachedLTP] *)
Definition NewCachedLTP (ltp : LTP) : M CachedLTP :=
  now <- Now ;; ret (mkCachedLTP ltp now).

(** ** package ports *)

(** [Repository]: a method returns the pointer ([None] for [nil]) and the
    [bool] as the Go signature has them. *)
Record Repository : Type := {
  GetLTP : Pair -> M (option CachedLTP * bool);
  SetLTP : Pair -> LTP -> M unit;
  Clear : M unit
}.

Record External : Type := {
  GetTicker : Pair -> Res LTP;
  GetTickers : list Pair -> Res (list LTP)
}.

(** ** package cache *)

Definition InMemoryCache_GetLTP (pr : Pair) : M (option CachedLTP * bool) :=
  st <- get_store ;;
  match st !! Value pr with
  | None => ret (None, false)
  | Some cached =>
      expired <- IsExpired cached ;;
      if expired then ret (None, false) else ret (Some cached, true)
  end.

Definition InMemoryCache_SetLTP (pr : Pair) (ltp : LTP) : M unit :=
  st <- get_store ;;
  c <- NewCachedLTP ltp ;;
  set_store (<[Value pr := c]> st).

Definition InMemoryCache_Clear : M unit := set_store ∅.

Definition NewInMemoryCache : Repository :=
  {| GetLTP := InMemoryCache_GetLTP;
     SetLTP := InMemoryCache_SetLTP;
     Clear := InMemoryCache_Clear |}.

(** ** package kraken *)

(** [type KrakenTickerData struct { C []string }] *)
Record KrakenTickerData : Type := mkTickerData { C : list string }.

(** [type KrakenTickerResponse struct { Error []string; Result map[...] }] *)
Record KrakenTickerResponse : Type := mkTickerResponse {
  Error : list string;
  Result : gmap string KrakenTickerData
}.

(** What the network gives for one [httpClient.Get(url)], in the order the
    code looks at it: the transport error, else the status code, else the
    body, which [io.ReadAll] fails to read, or [json.Unmarshal] rejects, or
    decodes into a [KrakenTickerResponse]. *)
Inductive Body : Type :=
  | Unreadable (cause : string)
  | Malformed (cause : string)
  | Decoded (tickerResp : KrakenTickerResponse).

Inductive HttpResult : Type :=
  | TransportError (cause : string)
  | Response (StatusCode : Z) (body : Body).

Definition StatusOK : Z := 200.
Definition StatusBadRequest : Z := 400.
Definition StatusInternalServerError : Z := 500.

(** [type KrakenClient struct { baseURL string; httpClient *http.Client }];
    the client is the function from the URL to what the network gives. *)
Record KrakenClient : Type := mkKrakenClient {
  baseURL : string;
  httpClient : string -> HttpResult
}.

Definition krakenMapping : gmap string string :=
  <[BTCUSD := "XBTUSD"]> (<[BTCCHF := "XBTCHF"]> (<[BTCEUR := "XBTEUR"]> ∅)).

Definition pairToKrakenSymbol (pr : Pair) : string :=
  match krakenMapping !! Value pr with
  | Some symbol => symbol
  | None => Value pr
  end.

(** [for _, variant := range variants { if ..., ok := result[variant]; ok
    { return ... } }] *)
Fixpoint find_variant (result : gmap string KrakenTickerData)
    (variants : list string) : option (KrakenTickerData * string) :=
  match variants with
  | [] => None
  | variant :: rest =>
      match result !! variant with
      | Some tickerData => Some (tickerData, variant)
      | None => find_variant result rest
      end
  end.

(** [requestedSymbol[:3]] and [requestedSymbol[3:]] *)
Definition prefix3 (s : string) : string := substring 0 3 s.
Definition from3 (s : string) : string := substring 3 (String.length s - 3) s.

(** The ordered variants of a symbol: two for one that starts with "XBT",
    none for any other. *)
Definition variants_of (requestedSymbol : string) : list string :=
  if (3 <=? String.length requestedSymbol)%nat
     && String.eqb (prefix3 requestedSymbol) "XBT"
  then let suffix := from3 requestedSymbol in
       ["XXBTZ" ++ suffix; "XXBT" ++ suffix]
  else [].

(** [for symbol, tickerData := range result { return ... }] returns at the
    first entry the iteration meets. *)
Definition first_entry (result : gmap string KrakenTickerData)
    : option (string * KrakenTickerData) :=
  match map_to_list result with
  | [] => None
  | entry :: _ => Some entry
  end.

Definition findKrakenSymbolInResult (result : gmap string KrakenTickerData)
    (requestedSymbol : string) : KrakenTickerData * string * bool :=
  match result !! requestedSymbol with
  | Some tickerData => (tickerData, requestedSymbol, true)
  | None =>
      match find_variant result (variants_of requestedSymbol) with
      | Some (tickerData, variant) => (tickerData, variant, true)
      | None =>
          if (size result =? 1)%nat then
            match first_entry result with
            | Some (symbol, tickerData) => (tickerData, symbol, true)
            | None => (mkTickerData [], "", false)
            end
          else (mkTickerData [], "", false)
      end
  end.

Section Kraken.
Context `{strconv_pkg}.

(** The loop of [GetTickers] that maps the response to domain LTPs. *)
Fixpoint GetTickers_loop (tickers : gmap string KrakenTickerData)
    (pairs : list Pair) (result : list LTP) : Res (list LTP) :=
  match pairs with
  | [] => Ok result
  | pr :: rest =>
      let requestedSymbol := pairToKrakenSymbol pr in
      match findKrakenSymbolInResult tickers requestedSymbol with
      | (tickerData, foundSymbol, ok) =>
          if negb ok then Err (ErrNoData (Value pr) requestedSymbol)
          else
            match C tickerData with
            | [] => Err (ErrInvalidTicker (Value pr) foundSymbol)
            | c0 :: _ =>
                if String.eqb c0 ""
                then Err (ErrInvalidTicker (Value pr) foundSymbol)
                else
                  match ParseFloat c0 with
                  | None => Err (ErrParseAmount (Value pr) foundSymbol)
                  | Some amount =>
                      GetTickers_loop tickers rest
                        (result ++ [mkLTP pr amount])
                  end
            end
      end
  end.

Definition KrakenClient_GetTickers (k : KrakenClient) (pairs : list Pair)
    : Res (list LTP) :=
  if (length pairs =? 0)%nat then Err ErrNoPairs
  else
    let symbols := map pairToKrakenSymbol pairs in
    let pairParam := Join symbols "," in
    let url := baseURL k ++ "/Ticker?pair=" ++ pairParam in
    match httpClient k url with
    | TransportError cause => Err (ErrCall cause)
    | Response StatusCode body =>
        if negb (StatusCode =? StatusOK) then Err (ErrStatus StatusCode)
        else
          match body with
          | Unreadable cause => Err (ErrReadBody cause)
          | Malformed cause => Err (ErrUnmarshal cause)
          | Decoded tickerResp =>
              if (0 <? length (Error tickerResp))%nat
              then Err (ErrKrakenAPI (Error tickerResp))
              else GetTickers_loop (Result tickerResp) pairs []
          end
    end.

Definition KrakenClient_GetTicker (k : KrakenClient) (pr : Pair) : Res LTP :=
  match KrakenClient_GetTickers k [pr] with
  | Err e => Err e
  | Ok ltps =>
      match ltps with
      | [] => Err (ErrNoDataReturned (Value pr))
      | ltp :: _ => Ok ltp
      end
  end.

(** [func NewKrakenClient(baseURL string) ports.External]; the network
    behind the [http.Client] it builds is the argument [net]. *)
Definition NewKrakenClient (net : string -> HttpResult) (baseURL : string)
    : External :=
  let baseURL :=
    if String.eqb baseURL "" then "https://api.kraken.com/0/public"
    else baseURL in
  let k := mkKrakenClient baseURL net in
  {| GetTicker := KrakenClient_GetTicker k;
     GetTickers := KrakenClient_GetTickers k |}.
End Kraken.

(** ** package service *)

(** [type LTPService struct { repository; external }] *)
Record LTPService : Type := NewLTPService {
  repository : Repository;
  external : External
}.

Definition less (a b : LTP) : bool :=
  String.ltb (Value (LTP_Pair a)) (Value (LTP_Pair b)).

Section Service.
Context `{strings_pkg}.
Variable s : LTPService.

(** The three calls through the ports, each recorded in [calls]. *)
Definition repository_GetLTP (pr : Pair) : M (option CachedLTP * bool) :=
  r <- GetLTP (repository s) pr ;;
  record (CallGetLTP pr (snd r)) ;;;
  ret r.

Definition repository_SetLTP (pr : Pair) (ltp : LTP) : M unit :=
  SetLTP (repository s) pr ltp ;;;
  record (CallSetLTP pr ltp).

Definition external_GetTickers (pairs : list Pair) : M (Res (list LTP)) :=
  record (CallGetTickers pairs) ;;;
  ret (GetTickers (external s) pairs).

(** "Check cache first": the loop over [pairs]. *)
Fixpoint check_cache (pairs : list Pair) (result : list LTP)
    (pairsToFetch : list Pair) : M (list LTP * list Pair) :=
  match pairs with
  | [] => ret (result, pairsToFetch)
  | pr :: rest =>
      r <- repository_GetLTP pr ;;
      match r with
      | (Some cached, true) =>
          check_cache rest (result ++ [Cached_LTP cached]) pairsToFetch
      | _ => check_cache rest result (pairsToFetch ++ [pr])
      end
  end.

(** "Cache the fetched LTPs": the loop over [ltps]. *)
Fixpoint cache_fetched (ltps : list LTP) (result : list LTP)
    : M (list LTP) :=
  match ltps with
  | [] => ret result
  | ltp :: rest =>
      repository_SetLTP (LTP_Pair ltp) ltp ;;;
      cache_fetched rest (result ++ [ltp])
  end.

Definition LTPService_GetLTPs (pairsStr : string) : M (Res (list LTP)) :=
  match ParsePairs pairsStr with
  | Err err => ret (Err (ErrInvalidPairs err))
  | Ok pairs =>
      r <- check_cache pairs [] [] ;;
      match r with
      | (result, pairsToFetch) =>
          if (0 <? length pairsToFetch)%nat then
            fetched <- external_GetTickers pairsToFetch ;;
            match fetched with
            | Err err => ret (Err (ErrFetch err))
            | Ok ltps =>
                result <- cache_fetched ltps result ;;
                ret (Ok (sort_Slice less result))
            end
          else ret (Ok (sort_Slice less result))
      end
  end.
End Service.

(** ** package http (handler.go) *)

(** [dto.LTPItem], [dto.LTPResponse], [dto.ErrorResponse].  The error body
    holds [err.Error()]; it is represented by the error it is the message
    of. *)
Record LTPItem : Type := mkLTPItem { Item_Pair : string; Item_Amount : float64 }.

Inductive JSON : Type :=
  | ErrorResponse (err : error)
  | LTPResponse (ltp : list LTPItem)
  | Message (message : string).
      (* echo's [Map{"message": message}] *)

(** What [c.JSON(code, body)] writes. *)
Record Reply : Type := mkReply { code : Z; payload : JSON }.

(** The float64 numbers [encoding/json] encodes: all but NaN and the two
    infinities. *)
Definition finite (f : float64) : bool :=
  match f with
  | S754_zero _ | S754_finite _ _ _ => true
  | S754_infinity _ | S754_nan => false
  end.

(** [c.JSON(code, body)]: the body is encoded before anything is written.
    The encoder fails on the first amount that is NaN or infinite; then
    nothing is written and the error comes back. *)
Definition c_JSON (code : Z) (body : JSON) : Res Reply :=
  match body with
  | LTPResponse items =>
      match find (fun item => negb (finite (Item_Amount item))) items with
      | Some item => Err (ErrUnsupportedValue (Item_Amount item))
      | None => Ok (mkReply code body)
      end
  | _ => Ok (mkReply code body)
  end.

(** What the client gets for what the handler returns.  The router is
    [echo.New()] as it comes: an error the handler returns, nothing being
    written yet, is answered by echo's default error handler with status
    500 and the message "Internal Server Error". *)
Definition DefaultHTTPErrorHandler (r : Res Reply) : Reply :=
  match r with
  | Ok reply => reply
  | Err _ =>
      mkReply StatusInternalServerError (Message "Internal Server Error")
  end.

(** [type Handler struct { ltpService ports.LTPService }]; the port has the
    one method [GetLTPs]. *)
Record Handler : Type := NewHandler {
  ltpService : string -> M (Res (list LTP))
}.

(** [func (h *Handler) GetLTP(c echo.Context) error] as the router serves
    it; [pairsStr] is [c.QueryParam("pairs")], and the value is the reply
    the client gets: what [c.JSON] wrote, or echo's answer to the error the
    handler returned. *)
Definition Handler_GetLTP (h : Handler) (pairsStr : string) : M Reply :=
  r <- ltpService h pairsStr ;;
  match r with
  | Err err =>
      ret (DefaultHTTPErrorHandler
             (c_JSON StatusBadRequest (ErrorResponse err)))
  | Ok ltps =>
      let ltpItems :=
        map (fun ltp => mkLTPItem (Value (LTP_Pair ltp)) (Amount ltp)) ltps in
      ret (DefaultHTTPErrorHandler (c_JSON StatusOK (LTPResponse ltpItems)))
  end.

(** The server as [main] wires it. *)
Definition server `{strings_pkg} `{strconv_pkg} (net : string -> HttpResult)
    : Handler :=
  NewHandler
    (LTPService_GetLTPs (NewLTPService NewInMemoryCache (NewKrakenClient net ""))).

(** ** Implementations of the library interfaces, to run the model *)

(** [strings.ToUpper] and [strings.TrimSpace] on 7-bit input: the letters
    [a]-[z] are shifted, and the white space is tab, line feed, vertical
    tab, form feed, carriage return and space. *)
Definition upper_byte (c : ascii) : ascii :=
  let n := nat_of_ascii c in
  if (97 <=? n)%nat && (n <=? 122)%nat then ascii_of_nat (n - 32) else c.

Fixpoint upper_bytes (s : string) : string :=
  match s with
  | EmptyString => EmptyString
  | String c s' => String (upper_byte c) (upper_bytes s')
  end.

Definition space_byte (c : ascii) : bool :=
  let n := nat_of_ascii c in
  ((9 <=? n)%nat && (n <=? 13)%nat) || (n =? 32)%nat.

Fixpoint trim_left (s : string) : string :=
  match s with
  | EmptyString => EmptyString
  | String c s' => if space_byte c then trim_left s' else s
  end.

Fixpoint trim_right (s : string) : string :=
  match s with
  | EmptyString => EmptyString
  | String c s' =>
      match trim_right s' with
      | EmptyString => if space_byte c then EmptyString else String c EmptyString
      | r => String c r
      end
  end.

Definition ascii_strings : strings_pkg :=
  {| ToUpper := upper_bytes; TrimSpace := fun s => trim_right (trim_left s) |}.

(** [strconv.ParseFloat] on the integer literals [[+-]?[0-9]+]: the integer
    rounded to the nearest binary64, an error when that is out of range.
    Every other string is refused here, so this implementation stands for
    [ParseFloat] on integer literals only. *)
Definition digit_byte (c : ascii) : option Z :=
  let n := nat_of_ascii c in
  if (48 <=? n)%nat && (n <=? 57)%nat then Some (Z.of_nat (n - 48)) else None.

Fixpoint digits_value (s : string) (acc : Z) : option Z :=
  match s with
  | EmptyString => Some acc
  | String c s' =>
      match digit_byte c with
      | Some d => digits_value s' (10 * acc + d)
      | None => None
      end
  end.

Definition float64_of_Z (negative : bool) (m : Z) : option float64 :=
  match binary_normalize 53 1024 (if negative then - m else m) 0 negative with
  | S754_infinity _ => None
  | f => Some f
  end.

Definition parse_integer (s : string) : option float64 :=
  let unsigned (negative : bool) (r : string) :=
    match r with
    | EmptyString => None
    | _ => match digits_value r 0 with
           | Some m => float64_of_Z negative m
           | None => None
           end
    end in
  match s with
  | String "+"%char r => unsigned false r
  | String "-"%char r => unsigned true r
  | _ => unsigned false s
  end.

Definition integer_strconv : strconv_pkg := {| ParseFloat := parse_integer |}.

(** [amount >= 0] on [float64]. *)
Definition nonneg (f : float64) : bool := SFleb (S754_zero false) f.

(** A world with an empty cache, a clock that stands at [t], and no call
    made yet. *)
Definition world0 (t : Time) : World := mkWorld ∅ (fun _ => t) 0 [].

(** ** Notions the statements use *)

(** Every entry of the cache is stored under the value of its own pair. *)
Definition cache_wf (st : gmap string CachedLTP) : Prop :=
  forall k c, st !! k = Some c -> Value (LTP_Pair (Cached_LTP c)) = k.

(** The calls a run has added to the record. *)
Definition new_calls (w w' : World) : list Call :=
  drop (length (calls w)) (calls w').

Definition is_CallSetLTP (c : Call) : bool :=
  match c with CallSetLTP _ _ => true | _ => false end.

Definition is_CallGetTickers (c : Call) : bool :=
  match c with CallGetTickers _ => true | _ => false end.

(** The tokens of a pair specification: none for the empty one, else the
    pieces between the commas. *)
Definition tokens (pairsStr : string) : list string :=
  if String.eqb pairsStr "" then [] else Split pairsStr ",".

Definition key (ltp : LTP) : string := Value (LTP_Pair ltp).

(** Strictly ascending by the pair's value. *)
Definition ascending (ltps : list LTP) : Prop :=
  StronglySorted (fun a b => String.ltb (key a) (key b) = true) ltps.

(** The entry a lookup of [pr] finds at time [now]: the stored one unless
    more than a minute has passed since its timestamp. *)
Definition fresh_entry (st : gmap string CachedLTP) (now : Time) (pr : Pair)
    : option CachedLTP :=
  match st !! Value pr with
  | Some c => if Minute <? now - Timestamp c then None else Some c
  | None => None
  end.

(** What looking up [pairs] one after the other finds, the [n]-th reading
    of the clock being the next one; only a lookup that meets an entry
    reads the clock. *)
Fixpoint probe (st : gmap string CachedLTP) (clk : nat -> Time) (n : nat)
    (pairs : list Pair) : list (Pair * option CachedLTP) :=
  match pairs with
  | [] => []
  | pr :: rest =>
      (pr, fresh_entry st (clk n) pr)
      :: probe st clk (match st !! Value pr with Some _ => S n | None => n end)
           rest
  end.

(** The quotes of the pairs found fresh, and the pairs not found fresh,
    both in the order of the request. *)
Definition hits (looked : list (Pair * option CachedLTP)) : list LTP :=
  flat_map (fun po => match snd po with
                      | Some c => [Cached_LTP c] | None => [] end) looked.

Definition misses (looked : list (Pair * option CachedLTP)) : list Pair :=
  flat_map (fun po => match snd po with
                      | Some _ => [] | None => [fst po] end) looked.

Definition lookups (looked : list (Pair * option CachedLTP)) : list Call :=
  map (fun po => CallGetLTP (fst po)
                   (match snd po with Some _ => true | None => false end))
      looked.

Definition stores (ltps : list LTP) : list Call :=
  map (fun ltp => CallSetLTP (LTP_Pair ltp) ltp) ltps.

(** The result of [GetLTPs] and the calls it makes, from what the lookups
    found and what the upstream answers. *)
Definition GetLTPs_result (ext : External)
    (looked : list (Pair * option CachedLTP)) : Res (list LTP) :=
  match misses looked with
  | [] => Ok (sort_Slice less (hits looked))
  | ms =>
      match GetTickers ext ms with
      | Err e => Err (ErrFetch e)
      | Ok ltps => Ok (sort_Slice less (hits looked ++ ltps))
      end
  end.

Definition GetLTPs_calls (ext : External)
    (looked : list (Pair * option CachedLTP)) : list Call :=
  lookups looked ++
  match misses looked with
  | [] => []
  | ms =>
      CallGetTickers ms ::
      match GetTickers ext ms with
      | Err _ => []
      | Ok ltps => stores ltps
      end
  end.

(** The cache after storing [ltps] one after the other, the [n]-th reading
    of the clock being the next one. *)
Fixpoint store_all (st : gmap string CachedLTP) (clk : nat -> Time) (n : nat)
    (ltps : list LTP) : gmap string CachedLTP :=
  match ltps with
  | [] => st
  | ltp :: rest =>
      store_all (<[key ltp := mkCachedLTP ltp (clk n)]> st) clk (S n) rest
  end.

(** Neither the symbol nor one of its variants is a key of the response. *)
Definition unmatched (result : gmap string KrakenTickerData)
    (requestedSymbol : string) : Prop :=
  result !! requestedSymbol = None /\
  forall v, In v (variants_of requestedSymbol) -> result !! v = None.

(** The URL [GetTickers] calls for [pairs]. *)
Definition ticker_url (k : KrakenClient) (pairs : list Pair) : string :=
  baseURL k ++ "/Ticker?pair=" ++ Join (map pairToKrakenSymbol pairs) ",".

(** The quote of [pr] is parsed from the first price of the record its
    symbol resolves to. *)
Definition parsed_from `{strconv_pkg} (tickers : gmap string KrakenTickerData)
    (pr : Pair) (ltp : LTP) : Prop :=
  LTP_Pair ltp = pr /\
  exists tickerData foundSymbol c0 rest,
    findKrakenSymbolInResult tickers (pairToKrakenSymbol pr)
      = (tickerData, foundSymbol, true) /\
    C tickerData = c0 :: rest /\
    ParseFloat c0 = Some (Amount ltp).

(** The upstream answers every non-empty batch of pairs whose values are
    among [requested] with one quote per pair, in any order. *)
Definition one_quote_per_pair (ext : External) (requested : list string)
    : Prop :=
  forall ps, ps <> [] -> (forall pr, In pr ps -> In (Value pr) requested) ->
    exists ltps, GetTickers ext ps = Ok ltps /\
                 Permutation (map LTP_Pair ltps) ps.

(** Two stand-ins for the upstream, as the tests of the service have them:
    one that quotes [amount] for every pair, one that is down. *)
Definition quoting (amount : float64) : External :=
  {| GetTicker := fun pr => Ok (mkLTP pr amount);
     GetTickers := fun pairs => Ok (map (fun pr => mkLTP pr amount) pairs) |}.

Definition down (e : error) : External :=
  {| GetTicker := fun _ => Err e; GetTickers := fun _ => Err e |}.

(** A world whose cache holds one quote of BTC/USD stamped [ts], the clock
    standing at [now]. *)
Definition world1 (ts now : Time) : World :=
  mkWorld {[ BTCUSD := mkCachedLTP (mkLTP (mkPair BTCUSD) (S754_zero false)) ts ]}
          (fun _ => now) 0 [].

(** A network that gives the same thing for every URL. *)
Definition always (r : HttpResult) : string -> HttpResult := fun _ => r.

Definition answering (tickers : gmap string KrakenTickerData)
    : string -> HttpResult :=
  always (Response StatusOK (Decoded (mkTickerResponse [] tickers))).

(** A response that holds the three catalog pairs, as the provider names
    them. *)
Definition sample_tickers : gmap string KrakenTickerData :=
  <["XXBTZUSD" := mkTickerData ["52000"; "1"; "1.000"]]>
  (<["XBTCHF" := mkTickerData ["48000"; "1"; "1.000"]]>
   {[ "XXBTZEUR" := mkTickerData ["50000"; "1"; "1.000"] ]}).

(** The binary64 number -1. *)
Definition minus_one : float64 := S754_finite true 4503599627370496 (-52).

(** No quote of the cache has an amount that is not non-negative. *)
Definition cache_nonneg (st : gmap string CachedLTP) : Prop :=
  forall k c, st !! k = Some c -> nonneg (Amount (Cached_LTP c)) = true.

(** Whatever the network answers, the first price of every record of a
    decoded response parses, if it parses, to a number that is
    non-negative. *)
Definition nonneg_prices `{strconv_pkg} (net : string -> HttpResult) : Prop :=
  forall url tickerResp symbol d c0 rest amount,
    net url = Response StatusOK (Decoded tickerResp) ->
    Result tickerResp !! symbol = Some d -> C d = c0 :: rest ->
    ParseFloat c0 = Some amount -> nonneg amount = true.

(** The requests [requests] served one after the other by [GetLTPs], with
    their results. *)
Fixpoint serve_all (GetLTPs : string -> M (Res (list LTP)))
    (requests : list string) : M (list (Res (list LTP))) :=
  match requests with
  | [] => ret []
  | pairsStr :: rest =>
      r <- GetLTPs pairsStr ;;
      rs <- serve_all GetLTPs rest ;;
      ret (r :: rs)
  end.

(** ** Notions of the further properties *)

(** The catalog, as a list. *)
Definition catalog : list string := [BTCUSD; BTCCHF; BTCEUR].

(** The values of [vs] in the order of their first occurrence. *)
Fixpoint first_occurrences (vs : list string) : list string :=
  match vs with
  | [] => []
  | v :: rest =>
      v :: List.filter (fun u => negb (String.eqb v u)) (first_occurrences rest)
  end.

(** The quote [ltp] is what the loop of [GetTickers] builds for [pr]: the
    symbol of [pr] resolves to a record whose first price is not empty and
    parses to the amount of [ltp]. *)
Definition quoted_by `{strconv_pkg} (tickers : gmap string KrakenTickerData)
    (pr : Pair) (ltp : LTP) : Prop :=
  LTP_Pair ltp = pr /\
  exists tickerData foundSymbol c0 rest,
    findKrakenSymbolInResult tickers (pairToKrakenSymbol pr)
      = (tickerData, foundSymbol, true) /\
    C tickerData = c0 :: rest /\
    c0 <> "" /\
    ParseFloat c0 = Some (Amount ltp).

(** The number of [pairs] that have an entry in the cache: the clock
    readings their lookups take. *)
Definition present (st : gmap string CachedLTP) (pairs : list Pair) : nat :=
  length (List.filter (fun pr => match st !! Value pr with
                                 | Some _ => true | None => false end) pairs).

(** The cache a run of [GetLTPs] on [pairs] leaves. *)
Definition GetLTPs_store (ext : External) (w : World) (pairs : list Pair)
    : gmap string CachedLTP :=
  match misses (probe (store w) (clock w) (reads w) pairs) with
  | [] => store w
  | ms =>
      match GetTickers ext ms with
      | Err _ => store w
      | Ok ltps =>
          store_all (store w) (clock w) (reads w + present (store w) pairs) ltps
      end
  end.

(** Non-decreasing by the pair's value. *)
Definition sorted_by_pair (ltps : list LTP) : Prop :=
  StronglySorted (fun a b => String.le (key a) (key b)) ltps.


(** ** The second KrakenClient (the copy of package kraken in handler.go,
    lines 391 to 589) *)
Module client2.

(** [func joinStrings(strs []string, sep string) string] *)
Definition joinStrings (strs : list string) (sep : string) : string :=
  match strs with
  | [] => ""
  | s0 :: rest =>
      match rest with
      | [] => s0
      | _ => fold_left (fun result s1 => result ++ sep ++ s1) rest s0
      end
  end.

(** The URL its [GetTickers] builds: with the first symbol, and again with
    all of them joined when there are several. *)
Definition ticker_url (k : KrakenClient) (pairs : list Pair) : string :=
  let symbols := map pairToKrakenSymbol pairs in
  let url := baseURL k ++ "/Ticker?pair=" ++ hd "" symbols in
  if (1 <? length symbols)%nat
  then baseURL k ++ "/Ticker?pair=" ++ joinStrings symbols ","
  else url.

(** [requestedSymbol[0] == 'X'] and [requestedSymbol[1:]] *)
Definition starts_with_X (s : string) : bool :=
  match s with
  | String c _ => Ascii.eqb c "X"
  | EmptyString => false
  end.
Definition from1 (s : string) : string := substring 1 (String.length s - 1) s.

(** The variants its [findKrakenSymbolInResult] builds. *)
Definition variants_of (requestedSymbol : string) : list string :=
  if (3 <=? String.length requestedSymbol)%nat
     && String.eqb (prefix3 requestedSymbol) "XBT"
  then let suffix := from3 requestedSymbol in
       ["XXBTZ" ++ suffix; "XXBT" ++ suffix; "X" ++ requestedSymbol]
  else if (0 <? String.length requestedSymbol)%nat
          && starts_with_X requestedSymbol
  then ["X" ++ requestedSymbol; "XX" ++ from1 requestedSymbol]
  else ["X" ++ requestedSymbol].

Definition findKrakenSymbolInResult (result : gmap string KrakenTickerData)
    (requestedSymbol : string) : KrakenTickerData * string * bool :=
  match result !! requestedSymbol with
  | Some tickerData => (tickerData, requestedSymbol, true)
  | None =>
      match find_variant result (variants_of requestedSymbol) with
      | Some (tickerData, variant) => (tickerData, variant, true)
      | None =>
          if (size result =? 1)%nat then
            match first_entry result with
            | Some (symbol, tickerData) => (tickerData, symbol, true)
            | None => (mkTickerData [], "", false)
            end
          else (mkTickerData [], "", false)
      end
  end.

End client2.

(** ** The second LTPService (the copy of package service in
    internal/ports/repository.go, lines 15 to 91): it gathers the quotes in
    a map keyed by the pair's value, and builds the result from the
    requested pairs. *)
Module service2.
Section Service2.
Context `{strings_pkg}.
Variable s : LTPService.

(** The loop over [pairs] that looks them up in the cache. *)
Fixpoint check_cache (pairs : list Pair) (ltpMap : gmap string LTP)
    (pairsToFetch : list Pair) : M (gmap string LTP * list Pair) :=
  match pairs with
  | [] => ret (ltpMap, pairsToFetch)
  | pr :: rest =>
      r <- repository_GetLTP s pr ;;
      match r with
      | (Some cached, true) =>
          check_cache rest (<[Value pr := Cached_LTP cached]> ltpMap)
            pairsToFetch
      | _ => check_cache rest ltpMap (pairsToFetch ++ [pr])
      end
  end.

(** The loop over the fetched [ltps]. *)
Fixpoint cache_fetched (ltps : list LTP) (ltpMap : gmap string LTP)
    : M (gmap string LTP) :=
  match ltps with
  | [] => ret ltpMap
  | ltp :: rest =>
      repository_SetLTP s (LTP_Pair ltp) ltp ;;;
      cache_fetched rest (<[Value (LTP_Pair ltp) := ltp]> ltpMap)
  end.

(** "Build result slice maintaining original order". *)
Fixpoint build_result (ltpMap : gmap string LTP) (pairs : list Pair)
    (result : list LTP) : list LTP :=
  match pairs with
  | [] => result
  | pr :: rest =>
      match ltpMap !! Value pr with
      | Some ltp => build_result ltpMap rest (result ++ [ltp])
      | None => build_result ltpMap rest result
      end
  end.

Definition GetLTPs (pairsStr : string) : M (Res (list LTP)) :=
  match ParsePairs pairsStr with
  | Err err => ret (Err (ErrInvalidPairs err))
  | Ok pairs =>
      r <- check_cache pairs ∅ [] ;;
      match r with
      | (ltpMap, pairsToFetch) =>
          if (0 <? length pairsToFetch)%nat then
            fetched <- external_GetTickers s pairsToFetch ;;
            match fetched with
            | Err err => ret (Err (ErrFetch err))
            | Ok ltps =>
                ltpMap <- cache_fetched ltps ltpMap ;;
                ret (Ok (sort_Slice less (build_result ltpMap pairs [])))
            end
          else ret (Ok (sort_Slice less (build_result ltpMap pairs [])))
      end
  end.
End Service2.
End service2.

(** The map the second service has gathered after its lookups, and after
    the fetched quotes. *)
Definition hit_map (looked : list (Pair * option CachedLTP))
    (ltpMap : gmap string LTP) : gmap string LTP :=
  fold_left (fun m po => match snd po with
                         | Some c => <[Value (fst po) := Cached_LTP c]> m
                         | None => m
                         end) looked ltpMap.

Definition fetched_map (ltps : list LTP) (ltpMap : gmap string LTP)
    : gmap string LTP :=
  fold_left (fun m ltp => <[key ltp := ltp]> m) ltps ltpMap.

(** The quotes a run fetches: what the upstream gives for the pairs not
    found fresh, none when all were found or the upstream fails. *)
Definition fetched (ext : External) (looked : list (Pair * option CachedLTP))
    : list LTP :=
  match misses looked with
  | [] => []
  | ms => match GetTickers ext ms with Ok ltps => ltps | Err _ => [] end
  end.

(* ===================================================================== *)
(** * Part II. Properties                                                 *)
(* ===================================================================== *)

(** ** Byte-wise string order *)

Lemma ltb_asym (a b : string) : String.ltb a b = true -> String.ltb b a = false.
Proof.
  unfold String.ltb. rewrite (String.compare_antisym b a).
  destruct (String.compare a b); simpl; congruence.
Qed.

Lemma ltb_false_le (a b : string) : String.ltb a b = false -> String.le b a.
Proof.
  unfold String.le, String.leb, String.ltb.
  rewrite (String.compare_antisym b a).
  destruct (String.compare a b); simpl; intros; done.
Qed.

Lemma le_ltb (a b : string) : String.le a b -> a <> b -> String.ltb a b = true.
Proof.
  unfold String.le, String.leb, String.ltb.
  destruct (String.compare a b) eqn:E; simpl; intros Hle Hne; try done.
  apply String.compare_eq_iff in E. done.
Qed.

Lemma ltb_negtrans (a b c : string) :
  String.ltb a b = false -> String.ltb b c = false -> String.ltb a c = false.
Proof.
  intros H1%ltb_false_le H2%ltb_false_le.
  destruct (String.ltb a c) eqn:E; [|done].
  assert (String.le c a) as Hca by (etrans; eauto).
  assert (String.ltb c a = false) as Hn by (by apply ltb_asym).
  assert (a = c) as -> by (apply (anti_symm String.le); [by apply ltb_false_le|done]).
  congruence.
Qed.

(** ** [sort.Slice] *)
Section SortFacts.
Context {A : Type} (lt : A -> A -> bool).

Lemma sink_Permutation x l : sink lt x l ≡ₚ x :: l.
Proof.
  induction l as [|y l IH]; simpl; [done|].
  destruct (lt x y); [|done].
  rewrite IH. apply Permutation_swap.
Qed.

Lemma sort_Slice_Permutation l : sort_Slice lt l ≡ₚ l.
Proof.
  unfold sort_Slice.
  assert (forall acc, fold_left (fun acc e => sink lt e acc) l acc ≡ₚ l ++ acc)
    as Hfold.
  { induction l as [|x l IH]; intros acc; simpl; [done|].
    rewrite IH, sink_Permutation. by rewrite Permutation_middle. }
  rewrite <- Permutation_rev, Hfold. by rewrite app_nil_r.
Qed.

Hypothesis lt_asym : forall a b, lt a b = true -> lt b a = false.
Hypothesis lt_negtrans :
  forall a b c, lt a b = false -> lt b c = false -> lt a c = false.

(** The reversed prefix is descending: nothing is below what follows
    it. *)
Lemma sink_descending x l :
  StronglySorted (fun a b => lt a b = false) l ->
  StronglySorted (fun a b => lt a b = false) (sink lt x l).
Proof.
  induction 1 as [|y l Hl IH Hy]; simpl.
  - repeat constructor.
  - destruct (lt x y) eqn:Hxy.
    + constructor; [done|].
      rewrite sink_Permutation. constructor; [by apply lt_asym|done].
    + constructor; [by constructor|].
      constructor; [done|].
      eapply Forall_impl; [exact Hy|]. simpl. eauto.
Qed.

Lemma sort_Slice_sorted l :
  StronglySorted (fun a b => lt b a = false) (sort_Slice lt l).
Proof.
  unfold sort_Slice.
  assert (forall acc, StronglySorted (fun a b => lt a b = false) acc ->
            StronglySorted (fun a b => lt a b = false)
              (fold_left (fun acc e => sink lt e acc) l acc)) as Hfold.
  { induction l as [|x l IH]; intros acc Hacc; simpl; [done|].
    by apply IH, sink_descending. }
  specialize (Hfold [] (SSorted_nil _)).
  induction Hfold as [|y r Hr IH Hy]; simpl; [constructor|].
  apply StronglySorted_app_2; [|done|repeat constructor].
  intros x1 x2 Hx1 ->%list_elem_of_singleton.
  rewrite Forall_forall in Hy. apply Hy.
  apply list_elem_of_In, in_rev. by apply list_elem_of_In.
Qed.
End SortFacts.

(** Sorting quotes whose pairs are distinct gives the strictly ascending
    arrangement of the same quotes. *)
Lemma sort_Slice_ascending (l : list LTP) :
  NoDup (map key l) -> ascending (sort_Slice less l).
Proof.
  intros Hnd.
  assert (NoDup (map key (sort_Slice less l))) as Hnd'.
  { by rewrite (sort_Slice_Permutation less l). }
  pose proof (sort_Slice_sorted less) as Hs.
  specialize (Hs (fun a b => ltb_asym _ _) (fun a b c => ltb_negtrans _ _ _) l).
  unfold ascending. revert Hnd'.
  induction Hs as [|x r Hr IH Hx]; intros Hnd'; [constructor|].
  simpl in Hnd'. apply NoDup_cons in Hnd' as [Hnot Hnd'].
  constructor; [by apply IH|].
  rewrite Forall_forall in Hx |- *. intros y Hy.
  apply le_ltb; [apply ltb_false_le, Hx, Hy|].
  intros Heq. apply Hnot. rewrite Heq. apply list_elem_of_fmap. eauto.
Qed.

Lemma ascending_NoDup (l : list LTP) : ascending l -> NoDup (map key l).
Proof.
  induction 1 as [|x r Hr IH Hx]; simpl; [constructor|].
  apply NoDup_cons. split; [|done].
  intros (y & Heq & Hy)%list_elem_of_fmap.
  rewrite Forall_forall in Hx. specialize (Hx y Hy).
  rewrite Heq in Hx. unfold String.ltb in Hx.
  assert (String.compare (key y) (key y) = Eq) as E.
  { assert (String.le (key y) (key y)) as Hle by done.
    unfold String.le, String.leb in Hle.
    pose proof (String.compare_antisym (key y) (key y)) as Ha.
    destruct (String.compare (key y) (key y)); simpl in *; congruence. }
  by rewrite E in Hx.
Qed.

(** ** [time.Sub] against one minute *)
Lemma Sub_expired (now ts : Time) : (Minute <? Sub now ts) = (Minute <? now - ts).
Proof.
  unfold Sub, Minute, Second, minDuration, maxDuration.
  repeat case_match; lia.
Qed.

(** ** [ParsePairs] *)
Section ParseFacts.
Context `{strings_pkg}.

Lemma index_bool_insert (seen : gmap string bool) (k v : string) :
  index_bool (<[k := true]> seen) v = true <->
  v = k \/ index_bool seen v = true.
Proof.
  unfold index_bool. destruct (decide (k = v)) as [->|Hne].
  - rewrite lookup_insert_eq. naive_solver.
  - rewrite lookup_insert_ne by done. naive_solver.
Qed.

Lemma NewPair_valid (t : string) :
  IsValidPair t = true -> NewPair t = Ok (mkPair (ToUpper (TrimSpace t))).
Proof. unfold IsValidPair, NewPair. by intros ->. Qed.

Lemma NewPair_invalid (t : string) :
  IsValidPair t = false ->
  NewPair t = Err (ErrInvalidPair (ToUpper (TrimSpace t))).
Proof. unfold IsValidPair, NewPair. by intros ->. Qed.

(** On valid tokens the loop ends with the pairs it had, followed by the
    pairs of the tokens not seen before. *)
Lemma ParsePairs_loop_valid (toks : list string) (result : list Pair)
    (seen : gmap string bool) :
  (forall v, index_bool seen v = true <-> v ∈ map Value result) ->
  NoDup (map Value result) ->
  Forall (fun t => IsValidPair t = true) toks ->
  exists out,
    ParsePairs_loop toks result seen = Ok out /\
    NoDup (map Value out) /\
    (forall v, v ∈ map Value out <->
       v ∈ map Value result \/
       exists t, t ∈ toks /\ v = ToUpper (TrimSpace t)).
Proof.
  revert result seen.
  induction toks as [|t toks IH]; intros result seen Hseen Hnd Hval; simpl.
  - exists result. split_and!; [done..|]. set_solver.
  - apply Forall_cons in Hval as [Ht Hval].
    rewrite (NewPair_valid t Ht). simpl.
    set (v0 := ToUpper (TrimSpace t)).
    destruct (index_bool seen v0) eqn:Hs; simpl.
    + destruct (IH result seen Hseen Hnd Hval) as (out & -> & Hnd' & Hin).
      exists out. split_and!; [done..|].
      intros v. rewrite Hin. split; [set_solver|].
      intros [?|(t' & [->|Ht']%elem_of_cons & ->)]; [by left| |set_solver].
      left. by apply Hseen.
    + destruct (IH (result ++ [mkPair v0])%list (<[v0 := true]> seen))
        as (out & -> & Hnd' & Hin); [| |done|].
      * intros v. rewrite index_bool_insert, Hseen, List.map_app. set_solver.
      * rewrite List.map_app. apply NoDup_app. split_and!; [done| |].
        -- intros v Hv ->%list_elem_of_singleton.
           simpl in Hv. apply Hseen in Hv. congruence.
        -- apply NoDup_singleton.
      * exists out. split_and!; [done..|].
        intros v. rewrite Hin, List.map_app. set_solver.
Qed.

(** At the first invalid token the loop returns its error. *)
Lemma ParsePairs_loop_invalid (toks : list string) (result : list Pair)
    (seen : gmap string bool) :
  Exists (fun t => IsValidPair t = false) toks ->
  exists t, t ∈ toks /\ IsValidPair t = false /\
    ParsePairs_loop toks result seen
      = Err (ErrInvalidPair (ToUpper (TrimSpace t))).
Proof.
  revert result seen.
  induction toks as [|t toks IH]; intros result seen Hex.
  - by apply Exists_nil in Hex.
  - simpl. destruct (IsValidPair t) eqn:Ht.
    + apply Exists_cons in Hex as [Hex|Hex]; [congruence|].
      rewrite (NewPair_valid t Ht). simpl.
      destruct (index_bool seen _); simpl;
        edestruct IH as (t' & ? & ? & ->); eauto;
        exists t'; split_and!; try done; by right.
    + exists t. rewrite (NewPair_invalid t Ht).
      split_and!; [by left|done..].
Qed.

Lemma Split_nonempty (s : string) (sep : ascii) : Split s sep <> [].
Proof.
  destruct s as [|c s]; simpl; [done|].
  destruct (Ascii.eqb c sep); [done|]. by destruct (Split s sep).
Qed.

(** A specification whose tokens are all valid parses into distinct
    pairs, one for each distinct normalised token; the empty one into the
    catalog. *)
Lemma ParsePairs_valid (pairsStr : string) :
  Forall (fun t => IsValidPair t = true) (tokens pairsStr) ->
  exists pairs,
    ParsePairs pairsStr = Ok pairs /\
    NoDup (map Value pairs) /\
    (pairsStr = "" -> pairs = [mkPair BTCUSD; mkPair BTCCHF; mkPair BTCEUR]) /\
    (pairsStr <> "" ->
     forall v, v ∈ map Value pairs <->
       exists t, t ∈ tokens pairsStr /\ v = ToUpper (TrimSpace t)).
Proof.
  unfold tokens, ParsePairs. intros Hval.
  destruct (String.eqb_spec pairsStr "") as [Heq|Hne].
  - subst pairsStr. eexists. split_and!; [done| |done..].
    simpl. repeat (apply NoDup_cons; split; [set_solver|]). apply NoDup_nil_2.
  - destruct (ParsePairs_loop_valid (Split pairsStr ",") [] ∅)
      as (out & -> & Hnd & Hin); [|apply NoDup_nil_2|done|].
    { intros v. unfold index_bool. rewrite lookup_empty. set_solver. }
    assert (out <> []) as Hout.
    { pose proof (Split_nonempty pairsStr ",") as Hsp.
      destruct (Split pairsStr ",") as [|t ts] eqn:E; [done|].
      intros ->. specialize (Hin (ToUpper (TrimSpace t))).
      assert (ToUpper (TrimSpace t) ∈ map Value []) as Hbad; [|set_solver].
      apply Hin. right. exists t. split; [by left|done]. }
    destruct out as [|p out]; [done|]. simpl.
    exists (p :: out). split_and!; [done..|].
    intros _ v. rewrite Hin. set_solver.
Qed.

(** A non-empty specification with an invalid token is refused with the
    error of its first invalid token. *)
Lemma ParsePairs_invalid (pairsStr : string) :
  Exists (fun t => IsValidPair t = false) (tokens pairsStr) ->
  exists t, t ∈ tokens pairsStr /\ IsValidPair t = false /\
    ParsePairs pairsStr = Err (ErrInvalidPair (ToUpper (TrimSpace t))).
Proof.
  unfold tokens, ParsePairs.
  destruct (String.eqb_spec pairsStr "") as [Heq|Hne]; intros Hex.
  - by apply Exists_nil in Hex.
  - destruct (ParsePairs_loop_invalid _ [] ∅ Hex) as (t & ? & ? & ->).
    by exists t.
Qed.
End ParseFacts.

(** ** The cache *)

Lemma InMemoryCache_GetLTP_run (pr : Pair) (w : World) :
  InMemoryCache_GetLTP pr w =
    match store w !! Value pr with
    | None => ((None, false), w)
    | Some c =>
        (if Minute <? clock w (reads w) - Timestamp c
         then (None, false) else (Some c, true),
         mkWorld (store w) (clock w) (S (reads w)) (calls w))
    end.
Proof.
  unfold InMemoryCache_GetLTP, IsExpired, Since, Now, get_store, bind, ret.
  destruct (store w !! Value pr) as [c|]; [|done]. simpl.
  rewrite Sub_expired. by case_match.
Qed.

Lemma InMemoryCache_SetLTP_run (pr : Pair) (ltp : LTP) (w : World) :
  InMemoryCache_SetLTP pr ltp w =
    (tt, mkWorld (<[Value pr := mkCachedLTP ltp (clock w (reads w))]> (store w))
           (clock w) (S (reads w)) (calls w)).
Proof. done. Qed.

Lemma cache_wf_empty : cache_wf ∅.
Proof. intros k c. by rewrite lookup_empty. Qed.

Lemma cache_wf_insert (st : gmap string CachedLTP) (ltp : LTP) (t : Time) :
  cache_wf st -> cache_wf (<[key ltp := mkCachedLTP ltp t]> st).
Proof.
  intros Hwf k c. destruct (decide (key ltp = k)) as [<-|Hne].
  - rewrite lookup_insert_eq. by intros [= <-].
  - rewrite lookup_insert_ne by done. apply Hwf.
Qed.

Lemma fresh_entry_pair (st : gmap string CachedLTP) (now : Time) (pr : Pair)
    (c : CachedLTP) :
  cache_wf st -> fresh_entry st now pr = Some c -> LTP_Pair (Cached_LTP c) = pr.
Proof.
  unfold fresh_entry. intros Hwf Hf.
  destruct (st !! Value pr) as [c'|] eqn:E; [|done].
  destruct (Minute <? now - Timestamp c'); [done|]. injection Hf as <-.
  apply Hwf in E. destruct pr, (LTP_Pair (Cached_LTP c')). simpl in E. by subst.
Qed.

(** ** The two loops of [GetLTPs] on the in-memory cache *)
Section ServiceFacts.
Context `{strings_pkg}.
Variable ext : External.
Local Abbreviation s := (NewLTPService NewInMemoryCache ext).

Lemma check_cache_run (pairs : list Pair) (result : list LTP)
    (pairsToFetch : list Pair) (w : World) :
  let looked := probe (store w) (clock w) (reads w) pairs in
  exists n,
    check_cache s pairs result pairsToFetch w =
      ((result ++ hits looked, pairsToFetch ++ misses looked)%list,
       mkWorld (store w) (clock w) n (calls w ++ lookups looked)).
Proof.
  revert result pairsToFetch w.
  induction pairs as [|pr pairs IH]; intros result pairsToFetch w; simpl.
  - exists (reads w). unfold ret. rewrite !app_nil_r. by destruct w.
  - unfold bind at 1. unfold repository_GetLTP at 1. unfold bind, record, ret.
    simpl. rewrite InMemoryCache_GetLTP_run. unfold fresh_entry.
    destruct (store w !! Value pr) as [c|] eqn:E; simpl.
    + destruct (Minute <? clock w (reads w) - Timestamp c); simpl.
      * edestruct IH as [n ->]. simpl. exists n.
        unfold hits, misses, lookups. simpl.
        by rewrite <- !app_assoc.
      * edestruct IH as [n ->]. simpl. exists n.
        unfold hits, misses, lookups. simpl.
        by rewrite <- !app_assoc.
    + edestruct IH as [n ->]. simpl. exists n.
      unfold hits, misses, lookups. simpl.
      by rewrite <- !app_assoc.
Qed.

Lemma cache_fetched_run (ltps result : list LTP) (w : World) :
  cache_fetched s ltps result w =
    ((result ++ ltps)%list,
     mkWorld (store_all (store w) (clock w) (reads w) ltps) (clock w)
       (reads w + length ltps) (calls w ++ stores ltps)).
Proof.
  revert result w.
  induction ltps as [|ltp ltps IH]; intros result w; simpl.
  - unfold ret. rewrite !app_nil_r, Nat.add_0_r. by destruct w.
  - unfold bind at 1. unfold repository_SetLTP at 1. unfold bind, record.
    simpl. rewrite IH. simpl. unfold stores. simpl.
    rewrite <- !app_assoc. simpl. do 3 f_equal. lia.
Qed.

Lemma store_all_wf (st : gmap string CachedLTP) (clk : nat -> Time) (n : nat)
    (ltps : list LTP) :
  cache_wf st -> cache_wf (store_all st clk n ltps).
Proof.
  revert st n. induction ltps as [|ltp ltps IH]; intros st n Hwf; simpl;
    [done|]. by apply IH, cache_wf_insert.
Qed.

(** One run of [GetLTPs] on a specification that parses. *)
Lemma GetLTPs_run (pairsStr : string) (pairs : list Pair) (w : World) :
  ParsePairs pairsStr = Ok pairs ->
  let looked := probe (store w) (clock w) (reads w) pairs in
  exists w',
    LTPService_GetLTPs s pairsStr w = (GetLTPs_result ext looked, w') /\
    clock w' = clock w /\
    calls w' = (calls w ++ GetLTPs_calls ext looked)%list /\
    (cache_wf (store w) -> cache_wf (store w')) /\
    (forall e, GetLTPs_result ext looked = Err e -> store w' = store w).
Proof.
  intros Hparse looked. unfold LTPService_GetLTPs. rewrite Hparse.
  unfold bind at 1.
  destruct (check_cache_run pairs [] [] w) as [n ->]. fold looked. simpl.
  unfold GetLTPs_result, GetLTPs_calls.
  destruct (misses looked) as [|m ms] eqn:Hm; simpl.
  - unfold ret. eexists. split; [reflexivity|]. simpl.
    split_and!; [done| |done|done]. by rewrite app_nil_r.
  - unfold bind at 1. unfold external_GetTickers, bind, record, ret. simpl.
    destruct (GetTickers ext (m :: ms)) as [ltps|e]; simpl.
    + rewrite cache_fetched_run. simpl.
      eexists. split; [reflexivity|]. simpl.
      split_and!; [done| | |done].
      * by rewrite <- !app_assoc.
      * apply store_all_wf.
    + eexists. split; [reflexivity|]. simpl.
      split_and!; [done| |done|done].
      by rewrite <- !app_assoc.
Qed.

(** A specification that does not parse: the error comes back and the
    world is untouched. *)
Lemma GetLTPs_parse_error (pairsStr : string) (e : error) (w : World) :
  ParsePairs pairsStr = Err e ->
  LTPService_GetLTPs s pairsStr w = (Err (ErrInvalidPairs e), w).
Proof. intros Hparse. unfold LTPService_GetLTPs. by rewrite Hparse. Qed.
End ServiceFacts.

(** ** Symbol reconciliation *)

Lemma substring_all (s : string) : substring 0 (String.length s) s = s.
Proof. induction s as [|c s IH]; simpl; [done|]. by rewrite IH. Qed.

Lemma variants_of_XBT (suffix : string) :
  variants_of ("XBT" ++ suffix) = ["XXBTZ" ++ suffix; "XXBT" ++ suffix].
Proof.
  change ("XBT" ++ suffix) with (String "X" (String "B" (String "T" suffix))).
  unfold variants_of, prefix3, from3. simpl.
  rewrite Nat.sub_0_r, substring_all. by destruct suffix.
Qed.

Lemma variants_of_other (requestedSymbol : string) :
  (forall suffix, requestedSymbol <> "XBT" ++ suffix) ->
  variants_of requestedSymbol = [].
Proof.
  intros Hno. unfold variants_of, prefix3.
  destruct requestedSymbol as [|a [|b [|c r]]]; try done.
  simpl. replace (substring 0 0 r) with "" by (by destruct r).
  destruct (Ascii.eqb_spec a "X") as [->|]; [|done].
  destruct (Ascii.eqb_spec b "B") as [->|]; [|done].
  destruct (Ascii.eqb_spec c "T") as [->|]; [|done].
  by destruct (Hno r).
Qed.

Lemma find_variant_None (result : gmap string KrakenTickerData)
    (variants : list string) :
  (forall v, In v variants -> result !! v = None) ->
  find_variant result variants = None.
Proof.
  induction variants as [|v vs IH]; intros Hnone; simpl; [done|].
  rewrite (Hnone v) by (by left). apply IH. intros v' Hv'. apply Hnone. by right.
Qed.

Lemma size_1_singleton (result : gmap string KrakenTickerData) :
  size result = 1%nat ->
  exists k d, result = {[k := d]} /\ first_entry result = Some (k, d).
Proof.
  intros Hlen.
  assert (exists k d, map_to_list result = [(k, d)]) as (k & d & Hl).
  { rewrite <- length_map_to_list in Hlen.
    destruct (map_to_list result) as [|[k d] [|? ?]]; naive_solver. }
  exists k, d. unfold first_entry. rewrite Hl. split; [|done].
  assert (result = list_to_map (map_to_list result)) as Hr
    by (symmetry; apply list_to_map_to_list).
  rewrite Hl in Hr. simpl in Hr. by rewrite insert_empty in Hr.
Qed.

Lemma find_unmatched (result : gmap string KrakenTickerData)
    (requestedSymbol : string) :
  unmatched result requestedSymbol ->
  findKrakenSymbolInResult result requestedSymbol =
    if (size result =? 1)%nat then
      match first_entry result with
      | Some (symbol, tickerData) => (tickerData, symbol, true)
      | None => (mkTickerData [], "", false)
      end
    else (mkTickerData [], "", false).
Proof.
  intros [Hexact Hvar]. unfold findKrakenSymbolInResult.
  by rewrite Hexact, (find_variant_None _ _ Hvar).
Qed.

(** A response with a single record gives that record to every symbol. *)
Lemma find_singleton (k : string) (d : KrakenTickerData)
    (requestedSymbol : string) :
  findKrakenSymbolInResult {[k := d]} requestedSymbol = (d, k, true).
Proof.
  unfold findKrakenSymbolInResult.
  destruct (({[k := d]} : gmap string KrakenTickerData) !! requestedSymbol)
    as [d'|] eqn:E.
  - apply lookup_singleton_Some in E as [-> ->]. done.
  - assert (forall vs, find_variant ({[k := d]} : gmap string KrakenTickerData) vs
                       = Some (d, k) \/
                       find_variant ({[k := d]} : gmap string KrakenTickerData) vs
                       = None) as Hv.
    { induction vs as [|v vs IH]; simpl; [by right|].
      destruct (({[k := d]} : gmap string KrakenTickerData) !! v) as [d'|] eqn:Ev;
        [|done].
      apply lookup_singleton_Some in Ev as [-> ->]. by left. }
    destruct (Hv (variants_of requestedSymbol)) as [-> | ->]; [done|].
    rewrite map_size_singleton. simpl.
    unfold first_entry. by rewrite map_to_list_singleton.
Qed.

Lemma find_variant_Some (result : gmap string KrakenTickerData)
    (variants : list string) (d : KrakenTickerData) (v : string) :
  find_variant result variants = Some (d, v) -> result !! v = Some d.
Proof.
  induction variants as [|v' vs IH]; simpl; [done|].
  destruct (result !! v') as [d'|] eqn:E; [|done]. by intros [= <- <-].
Qed.

(** Whatever is found is a record of the response, under the key found. *)
Lemma find_found (result : gmap string KrakenTickerData)
    (requestedSymbol foundSymbol : string) (d : KrakenTickerData) :
  findKrakenSymbolInResult result requestedSymbol = (d, foundSymbol, true) ->
  result !! foundSymbol = Some d.
Proof.
  unfold findKrakenSymbolInResult.
  destruct (result !! requestedSymbol) as [d0|] eqn:E.
  { by intros [= <- <-]. }
  destruct (find_variant result (variants_of requestedSymbol))
    as [[d0 v]|] eqn:Ev.
  { intros [= <- <-]. by apply find_variant_Some in Ev. }
  destruct (size result =? 1)%nat; [|done].
  unfold first_entry.
  destruct (map_to_list result) as [|[k0 d0] l] eqn:El; [done|].
  intros [= <- <-]. apply elem_of_map_to_list. rewrite El. by left.
Qed.

(** ** [GetTickers] *)
Section KrakenFacts.
Context `{strconv_pkg}.

Lemma GetTickers_loop_app (tickers : gmap string KrakenTickerData)
    (pre post : list Pair) (result : list LTP) :
  GetTickers_loop tickers (pre ++ post) result =
    match GetTickers_loop tickers pre result with
    | Ok r => GetTickers_loop tickers post r
    | Err e => Err e
    end.
Proof.
  revert result. induction pre as [|pr pre IH]; intros result; simpl; [done|].
  destruct (findKrakenSymbolInResult tickers (pairToKrakenSymbol pr))
    as [[tickerData foundSymbol] [|]]; simpl; [|done].
  destruct (C tickerData) as [|c0 rest]; [done|].
  destruct (String.eqb c0 ""); [done|].
  destruct (ParseFloat c0); [|done]. apply IH.
Qed.

Lemma GetTickers_loop_Ok (tickers : gmap string KrakenTickerData)
    (pairs : list Pair) (result out : list LTP) :
  GetTickers_loop tickers pairs result = Ok out ->
  exists new, out = (result ++ new)%list /\
              Forall2 (parsed_from tickers) pairs new.
Proof.
  revert result. induction pairs as [|pr pairs IH]; intros result; simpl.
  - intros [= <-]. exists []. by rewrite app_nil_r.
  - destruct (findKrakenSymbolInResult tickers (pairToKrakenSymbol pr))
      as [[tickerData foundSymbol] [|]] eqn:Hfind; simpl; [|done].
    destruct (C tickerData) as [|c0 rest] eqn:HC; [done|].
    destruct (String.eqb c0 ""); [done|].
    destruct (ParseFloat c0) as [amount|] eqn:Hparse; [|done].
    intros (new & -> & Hall)%IH.
    exists (mkLTP pr amount :: new). rewrite <- app_assoc. split; [done|].
    constructor; [|done]. split; [done|].
    exists tickerData, foundSymbol, c0, rest. by rewrite Hfind.
Qed.

(** What a successful [GetTickers] has gone through. *)
Lemma GetTickers_Ok (k : KrakenClient) (pairs : list Pair) (ltps : list LTP) :
  KrakenClient_GetTickers k pairs = Ok ltps ->
  exists tickerResp,
    httpClient k (ticker_url k pairs) = Response StatusOK (Decoded tickerResp) /\
    Error tickerResp = [] /\
    GetTickers_loop (Result tickerResp) pairs [] = Ok ltps.
Proof.
  unfold KrakenClient_GetTickers, ticker_url.
  destruct (length pairs =? 0)%nat; [done|].
  destruct (httpClient k _) as [cause|StatusCode body]; [done|].
  destruct (Z.eqb_spec StatusCode StatusOK) as [->|Hne]; simpl; [|done].
  destruct body as [cause|cause|tickerResp]; [done..|].
  destruct (Error tickerResp) as [|e es] eqn:HE; simpl; [|done].
  intros Hloop. exists tickerResp. by rewrite HE.
Qed.

(** [GetTickers] on a response that is read and decoded without an
    error of the provider. *)
Lemma GetTickers_decoded (k : KrakenClient) (pairs : list Pair)
    (tickers : gmap string KrakenTickerData) :
  pairs <> [] ->
  httpClient k (ticker_url k pairs)
    = Response StatusOK (Decoded (mkTickerResponse [] tickers)) ->
  KrakenClient_GetTickers k pairs = GetTickers_loop tickers pairs [].
Proof.
  intros Hne Hnet. unfold KrakenClient_GetTickers. fold (ticker_url k pairs).
  rewrite Hnet. by destruct pairs.
Qed.
End KrakenFacts.

(** ** What the lookups find *)

Lemma probe_fst (st : gmap string CachedLTP) (clk : nat -> Time) (n : nat)
    (pairs : list Pair) :
  map fst (probe st clk n pairs) = pairs.
Proof.
  revert n. induction pairs as [|pr pairs IH]; intros n; simpl; [done|].
  by rewrite IH.
Qed.

Lemma probe_readings (st : gmap string CachedLTP) (clk : nat -> Time) (n : nat)
    (pairs : list Pair) :
  Forall (fun po => exists m, (n <= m < n + length pairs)%nat /\
                      snd po = fresh_entry st (clk m) (fst po))
         (probe st clk n pairs).
Proof.
  revert n. induction pairs as [|pr pairs IH]; intros n; simpl; [constructor|].
  constructor.
  - exists n. split; [lia|done].
  - eapply Forall_impl; [apply IH|]. simpl.
    intros po (m & Hm & Hpo). exists m. split; [|done].
    destruct (st !! Value pr); lia.
Qed.

Lemma probe_partition (st : gmap string CachedLTP) (clk : nat -> Time) (n : nat)
    (pairs : list Pair) :
  cache_wf st ->
  Permutation (map LTP_Pair (hits (probe st clk n pairs))
               ++ misses (probe st clk n pairs)) pairs.
Proof.
  intros Hwf. revert n.
  induction pairs as [|pr pairs IH]; intros n; simpl; [done|].
  unfold hits, misses. simpl.
  destruct (fresh_entry st (clk n) pr) as [c|] eqn:E; simpl.
  - rewrite (fresh_entry_pair _ _ _ _ Hwf E). constructor. apply IH.
  - rewrite <- Permutation_middle. constructor. apply IH.
Qed.

Lemma fresh_entry_Some (st : gmap string CachedLTP) (now : Time) (pr : Pair)
    (c : CachedLTP) :
  fresh_entry st now pr = Some c <->
  st !! Value pr = Some c /\ now - Timestamp c <= Minute.
Proof.
  unfold fresh_entry. destruct (st !! Value pr) as [c'|]; [|naive_solver].
  destruct (Z.ltb_spec Minute (now - Timestamp c')); split.
  - done.
  - intros [[= ->] ?]. lia.
  - intros [= ->]. split; [done|lia].
  - by intros [[= ->] ?].
Qed.

Lemma probe_all_hits (st : gmap string CachedLTP) (clk : nat -> Time) (n : nat)
    (pairs : list Pair) :
  misses (probe st clk n pairs) = [] ->
  Forall2 (fun pr ltp => exists c, st !! Value pr = Some c /\ ltp = Cached_LTP c)
          pairs (hits (probe st clk n pairs)).
Proof.
  revert n. induction pairs as [|pr pairs IH]; intros n; simpl; [constructor|].
  unfold hits, misses. simpl.
  destruct (fresh_entry st (clk n) pr) as [c|] eqn:E; simpl; [|done].
  apply fresh_entry_Some in E as [E _].
  intros Hm. constructor; [by exists c|]. by apply IH.
Qed.

Lemma GetLTPs_result_Ok (ext : External) (requested : list string)
    (looked : list (Pair * option CachedLTP)) (pairs : list Pair) :
  one_quote_per_pair ext requested ->
  (forall pr, In pr pairs -> In (Value pr) requested) ->
  Permutation (map LTP_Pair (hits looked) ++ misses looked) pairs ->
  exists ltps, GetLTPs_result ext looked = Ok (sort_Slice less ltps) /\
               Permutation (map LTP_Pair ltps) pairs.
Proof.
  intros Hext Hreq Hperm. unfold GetLTPs_result.
  destruct (misses looked) as [|m ms] eqn:Hm.
  - exists (hits looked). split; [done|]. by rewrite app_nil_r in Hperm.
  - destruct (Hext (m :: ms)) as (ltps & -> & Hl); [done| |].
    + intros pr Hpr. apply Hreq.
      apply list_elem_of_In. rewrite <- Hperm.
      apply list_elem_of_In, in_or_app. by right.
    + exists (hits looked ++ ltps)%list. split; [done|].
      by rewrite List.map_app, Hl.
Qed.

Lemma drop_new_calls (w w' : World) (cs : list Call) :
  calls w' = (calls w ++ cs)%list -> new_calls w w' = cs.
Proof. unfold new_calls. intros ->. by rewrite drop_app_length. Qed.

(** ** Where the quotes of [GetLTPs] come from

    What holds of every quote of the cache and of every quote the upstream
    returns holds of every quote [GetLTPs] returns, and of every quote of
    the cache afterwards. *)
Lemma store_all_preserves (P : LTP -> Prop) (st : gmap string CachedLTP)
    (clk : nat -> Time) (n : nat) (ltps : list LTP) :
  Forall P ltps ->
  (forall k c, st !! k = Some c -> P (Cached_LTP c)) ->
  forall k c, store_all st clk n ltps !! k = Some c -> P (Cached_LTP c).
Proof.
  revert st n.
  induction ltps as [|ltp ltps IH]; intros st n Hall Hst; simpl; [done|].
  apply Forall_cons in Hall as [Hltp Hall]. apply IH; [done|].
  intros k c. destruct (decide (key ltp = k)) as [<-|Hne].
  - rewrite lookup_insert_eq. by intros [= <-].
  - rewrite lookup_insert_ne by done. apply Hst.
Qed.

Lemma hits_stored (st : gmap string CachedLTP) (clk : nat -> Time) (n : nat)
    (pairs : list Pair) (l : LTP) :
  In l (hits (probe st clk n pairs)) ->
  exists k c, st !! k = Some c /\ Cached_LTP c = l.
Proof.
  unfold hits. intros ([pr [c|]] & Hin & Hl)%in_flat_map; simpl in Hl; [|done].
  destruct Hl as [<-|[]].
  pose proof (probe_readings st clk n pairs) as Hr.
  rewrite Forall_forall in Hr. apply list_elem_of_In, Hr in Hin.
  destruct Hin as (m & _ & Hm). simpl in Hm. symmetry in Hm.
  apply fresh_entry_Some in Hm as [Hm _]. by exists (Value pr), c.
Qed.

Section Provenance.
Context `{strings_pkg}.
Variable ext : External.
Variable P : LTP -> Prop.
Hypothesis fetched_P :
  forall ps ltps, GetTickers ext ps = Ok ltps -> Forall P ltps.
Local Abbreviation svcP := (NewLTPService NewInMemoryCache ext).

Lemma GetLTPs_preserves (pairsStr : string) (w : World) :
  (forall k c, store w !! k = Some c -> P (Cached_LTP c)) ->
  let run := LTPService_GetLTPs svcP pairsStr w in
  (forall ltps, fst run = Ok ltps -> Forall P ltps) /\
  (forall k c, store (snd run) !! k = Some c -> P (Cached_LTP c)).
Proof.
  intros Hst run. subst run.
  destruct (ParsePairs pairsStr) as [pairs|e] eqn:Hparse.
  2: { rewrite (GetLTPs_parse_error ext pairsStr e w Hparse). by split. }
  destruct (LTPService_GetLTPs svcP pairsStr w) as [r w'] eqn:Hrun. simpl.
  unfold LTPService_GetLTPs in Hrun. rewrite Hparse in Hrun.
  unfold bind at 1 in Hrun.
  destruct (check_cache_run ext pairs [] [] w) as [n Hcheck].
  rewrite Hcheck in Hrun. simpl in Hrun. clear Hcheck.
  set (looked := probe (store w) (clock w) (reads w) pairs) in *.
  assert (Forall P (hits looked)) as Hhits.
  { apply Forall_forall. intros l Hl%list_elem_of_In.
    destruct (hits_stored _ _ _ _ _ Hl) as (k & c & Hk & <-). eauto. }
  destruct (misses looked) as [|m ms] eqn:Hm; simpl in Hrun.
  - unfold ret in Hrun. injection Hrun as <- <-. simpl. split; [|done].
    intros ltps [= <-]. by rewrite sort_Slice_Permutation.
  - unfold bind at 1 in Hrun.
    unfold external_GetTickers, bind, record, ret in Hrun. simpl in Hrun.
    destruct (GetTickers ext (m :: ms)) as [ltps|e] eqn:Hget; simpl in Hrun.
    + rewrite cache_fetched_run in Hrun. simpl in Hrun.
      injection Hrun as <- <-. simpl.
      pose proof (fetched_P _ _ Hget) as Hf. split.
      * intros l [= <-]. rewrite sort_Slice_Permutation. by apply Forall_app.
      * by apply store_all_preserves.
    + injection Hrun as <- <-. simpl. by split.
Qed.

Lemma serve_all_preserves (requests : list string) (w : World) :
  (forall k c, store w !! k = Some c -> P (Cached_LTP c)) ->
  let run := serve_all (LTPService_GetLTPs svcP) requests w in
  Forall (fun r => forall ltps, r = Ok ltps -> Forall P ltps) (fst run) /\
  (forall k c, store (snd run) !! k = Some c -> P (Cached_LTP c)).
Proof.
  revert w. induction requests as [|q rest IH]; intros w Hst; simpl.
  - by split.
  - unfold bind.
    pose proof (GetLTPs_preserves q w Hst) as [Hr Hst1].
    destruct (LTPService_GetLTPs svcP q w) as [r w1]. simpl in Hr, Hst1.
    specialize (IH w1 Hst1).
    destruct (serve_all (LTPService_GetLTPs svcP) rest w1) as [rs w2].
    destruct IH as [IH1 IH2]. simpl in *. split; [by constructor|done].
Qed.
End Provenance.

(* ===================================================================== *)
(** * Part III. The claims                                                *)
(* ===================================================================== *)

(** C1. For every valid non-empty pair specification, and a cache whose
    entries sit under their own pairs (as in the empty cache, and again
    after the call), [GetLTPs] succeeds when the upstream returns one quote
    per requested pair; it returns exactly one quote for each distinct
    requested pair (the values of the returned pairs are distinct and are
    exactly the normalised tokens of the specification), strictly ascending
    by the pair's value. *)
Theorem GetLTPs_one_quote_per_pair_sorted `{strings_pkg} (ext : External)
    (pairsStr : string) (w : World) :
  pairsStr <> "" ->
  Forall (fun t => IsValidPair t = true) (Split pairsStr ",") ->
  cache_wf (store w) ->
  one_quote_per_pair ext
    (map (fun t => ToUpper (TrimSpace t)) (Split pairsStr ",")) ->
  exists ltps w',
    LTPService_GetLTPs (NewLTPService NewInMemoryCache ext) pairsStr w
      = (Ok ltps, w') /\
    NoDup (map key ltps) /\
    (forall v, In v (map key ltps) <->
       exists t, In t (Split pairsStr ",") /\ v = ToUpper (TrimSpace t)) /\
    ascending ltps /\
    cache_wf (store w').
Proof.
  intros Hne Hval Hwf Hext.
  assert (tokens pairsStr = Split pairsStr ",") as Htok.
  { unfold tokens. by destruct (String.eqb_spec pairsStr ""). }
  destruct (ParsePairs_valid pairsStr) as (pairs & Hparse & Hnd & _ & Hin);
    [by rewrite Htok|].
  specialize (Hin Hne). rewrite Htok in Hin.
  destruct (GetLTPs_run ext pairsStr pairs w Hparse)
    as (w' & Hrun & _ & _ & Hwf' & _).
  destruct (GetLTPs_result_Ok ext _
              (probe (store w) (clock w) (reads w) pairs) pairs Hext)
    as (l & Hres & Hperm); [|by apply probe_partition|].
  { intros pr Hpr. apply in_map_iff.
    destruct (proj1 (Hin (Value pr))) as (t & Ht & Hv).
    - apply list_elem_of_In, in_map, Hpr.
    - exists t. split; [done|]. by apply list_elem_of_In. }
  rewrite Hres in Hrun. exists (sort_Slice less l), w'.
  assert (Permutation (map key (sort_Slice less l)) (map Value pairs)) as Hkeys.
  { rewrite (sort_Slice_Permutation less l).
    unfold key. rewrite <- (List.map_map LTP_Pair Value). by rewrite Hperm. }
  assert (NoDup (map key l)) as Hndl.
  { rewrite <- (sort_Slice_Permutation less l). by rewrite Hkeys. }
  split_and!; [done| | |by apply sort_Slice_ascending|by apply Hwf'].
  - by rewrite Hkeys.
  - intros v. rewrite <- list_elem_of_In, Hkeys, Hin.
    split; intros (t & Ht & Hv); exists t; split; try done;
      by apply list_elem_of_In.
Qed.

Lemma quoting_one_quote_per_pair (amount : float64) (requested : list string) :
  one_quote_per_pair (quoting amount) requested.
Proof.
  intros ps _ _. eexists. split; [reflexivity|].
  rewrite List.map_map. simpl. by rewrite List.map_id.
Qed.

Lemma GetLTPs_one_quote_per_pair_sorted_witness :
  exists ltps w',
    @LTPService_GetLTPs ascii_strings
      (NewLTPService NewInMemoryCache (quoting (S754_zero false)))
      " btc/usd,BTC/EUR,btc/USD " (world0 0) = (Ok ltps, w') /\
    NoDup (map key ltps) /\
    (forall v, In v (map key ltps) <->
       exists t, In t (Split " btc/usd,BTC/EUR,btc/USD " ",") /\
                 v = upper_bytes (trim_right (trim_left t))) /\
    ascending ltps /\
    cache_wf (store w').
Proof.
  apply (@GetLTPs_one_quote_per_pair_sorted ascii_strings).
  - discriminate.
  - vm_compute. repeat constructor.
  - apply cache_wf_empty.
  - apply quoting_one_quote_per_pair.
Defined.

(** C6. The empty specification is not an error: it parses into the three
    catalog pairs, and [GetLTPs] (on a cache whose entries sit under their
    own pairs, the upstream returning one quote per requested pair) returns
    the quotes of BTC/CHF, BTC/EUR and BTC/USD, in this order. *)
Theorem GetLTPs_empty_spec_all_pairs `{strings_pkg} (ext : External)
    (w : World) :
  cache_wf (store w) ->
  one_quote_per_pair ext [BTCUSD; BTCCHF; BTCEUR] ->
  ParsePairs "" = Ok [mkPair BTCUSD; mkPair BTCCHF; mkPair BTCEUR] /\
  exists ltps w',
    LTPService_GetLTPs (NewLTPService NewInMemoryCache ext) "" w
      = (Ok ltps, w') /\
    map key ltps = [BTCCHF; BTCEUR; BTCUSD] /\
    ascending ltps.
Proof.
  intros Hwf Hext. split; [done|].
  set (pairs := [mkPair BTCUSD; mkPair BTCCHF; mkPair BTCEUR]).
  destruct (GetLTPs_run ext "" pairs w eq_refl) as (w' & Hrun & _).
  destruct (GetLTPs_result_Ok ext _
              (probe (store w) (clock w) (reads w) pairs) pairs Hext)
    as (l & Hres & Hperm); [|by apply probe_partition|].
  { intros pr Hpr. by apply (in_map Value) in Hpr. }
  rewrite Hres in Hrun. exists (sort_Slice less l), w'.
  assert (Permutation (map key (sort_Slice less l)) (map Value pairs)) as Hkeys.
  { rewrite (sort_Slice_Permutation less l).
    unfold key. rewrite <- (List.map_map LTP_Pair Value). by rewrite Hperm. }
  assert (ascending (sort_Slice less l)) as Hasc.
  { apply sort_Slice_ascending.
    rewrite <- (sort_Slice_Permutation less l), Hkeys.
    simpl. repeat (apply NoDup_cons; split; [set_solver|]). apply NoDup_nil_2. }
  split_and!; [done| |done].
  apply (StronglySorted_unique_strong (fun a b => String.ltb a b = true)).
  - intros x1 x2 _ _ H12 H21. apply ltb_asym in H12. congruence.
  - eapply (StronglySorted_fmap key); [|exact Hasc]. done.
  - repeat constructor.
  - rewrite Hkeys. simpl.
    rewrite (Permutation_swap (Value (mkPair BTCCHF)) (Value (mkPair BTCUSD))).
    constructor. apply Permutation_swap.
Qed.

Lemma GetLTPs_empty_spec_all_pairs_witness :
  @ParsePairs ascii_strings "" = Ok [mkPair BTCUSD; mkPair BTCCHF; mkPair BTCEUR] /\
  exists ltps w',
    @LTPService_GetLTPs ascii_strings
      (NewLTPService NewInMemoryCache (quoting (S754_zero false)))
      "" (world0 0) = (Ok ltps, w') /\
    map key ltps = [BTCCHF; BTCEUR; BTCUSD] /\
    ascending ltps.
Proof.
  apply (@GetLTPs_empty_spec_all_pairs ascii_strings).
  - apply cache_wf_empty.
  - apply quoting_one_quote_per_pair.
Defined.

(** C7. A specification with a token whose trimmed, upper-cased form is
    not in the catalog (the empty specification has no token) makes
    [GetLTPs] fail with the invalid-pair error of such a token, whatever
    the repository and the upstream are; the world is left as it was: no
    call through either port, hence no fetch, no cache read and no cache
    write. *)
Theorem GetLTPs_invalid_token_touches_nothing `{strings_pkg} (s : LTPService)
    (pairsStr : string) (w : World) :
  Exists (fun t => IsValidPair t = false) (tokens pairsStr) ->
  exists t,
    In t (tokens pairsStr) /\
    index_bool validPairs (ToUpper (TrimSpace t)) = false /\
    LTPService_GetLTPs s pairsStr w
      = (Err (ErrInvalidPairs (ErrInvalidPair (ToUpper (TrimSpace t)))), w).
Proof.
  intros Hex.
  destruct (ParsePairs_invalid pairsStr Hex) as (t & Ht & Hbad & Hparse).
  exists t. split_and!; [by apply list_elem_of_In|done|].
  unfold LTPService_GetLTPs. by rewrite Hparse.
Qed.

Lemma GetLTPs_invalid_token_touches_nothing_witness :
  exists t,
    In t (tokens "BTC/USD, btc/gbp") /\
    index_bool validPairs (upper_bytes (trim_right (trim_left t))) = false /\
    @LTPService_GetLTPs ascii_strings
      (NewLTPService NewInMemoryCache (quoting (S754_zero false)))
      "BTC/USD, btc/gbp" (world0 0)
      = (Err (ErrInvalidPairs
                (ErrInvalidPair (upper_bytes (trim_right (trim_left t))))),
         world0 0).
Proof.
  apply (@GetLTPs_invalid_token_touches_nothing ascii_strings).
  vm_compute. apply Exists_cons_tl, Exists_cons_hd. reflexivity.
Defined.

Lemma lookups_no_fetch (looked : list (Pair * option CachedLTP)) :
  List.filter is_CallGetTickers (lookups looked) = [].
Proof. induction looked as [|po looked IH]; simpl; done. Qed.

Lemma stores_no_fetch (ltps : list LTP) :
  List.filter is_CallGetTickers (stores ltps) = [].
Proof. induction ltps as [|ltp ltps IH]; simpl; done. Qed.

Lemma lookups_no_store (looked : list (Pair * option CachedLTP)) :
  Forall (fun c => is_CallSetLTP c = false) (lookups looked).
Proof. induction looked as [|po looked IH]; simpl; by constructor. Qed.

Lemma In_GetLTPs_calls (ext : External)
    (looked : list (Pair * option CachedLTP)) (ps : list Pair) :
  In (CallGetTickers ps) (GetLTPs_calls ext looked) ->
  ps = misses looked /\ ps <> [].
Proof.
  unfold GetLTPs_calls. intros [Hin|Hin]%in_app_or.
  - unfold lookups in Hin. apply in_map_iff in Hin as (po & Heq & _). done.
  - destruct (misses looked) as [|m ms]; [done|].
    destruct Hin as [[= <-]|Hin]; [done|].
    destruct (GetTickers ext (m :: ms)); [|done].
    unfold stores in Hin. apply in_map_iff in Hin as (l & Heq & _). done.
Qed.

(** C3. On the in-memory cache, whatever the upstream: if the batched
    fetch that a call of [GetLTPs] makes fails, the call returns the error
    (wrapped) and no quote, also when some pairs were found in the cache;
    and whenever [GetLTPs] returns an error, no [SetLTP] was called and the
    cache is what it was. *)
Theorem GetLTPs_fetch_failure_fails_all `{strings_pkg} (ext : External)
    (pairsStr : string) (w w' : World) (r : Res (list LTP)) :
  LTPService_GetLTPs (NewLTPService NewInMemoryCache ext) pairsStr w = (r, w') ->
  (forall ps e, In (CallGetTickers ps) (new_calls w w') ->
                GetTickers ext ps = Err e -> r = Err (ErrFetch e)) /\
  (forall e, r = Err e ->
             store w' = store w /\
             Forall (fun c => is_CallSetLTP c = false) (new_calls w w')).
Proof.
  intros Hrun. destruct (ParsePairs pairsStr) as [pairs|e0] eqn:Hparse.
  - destruct (GetLTPs_run ext pairsStr pairs w Hparse)
      as (w1 & Hrun1 & _ & Hcalls & _ & Hstore).
    rewrite Hrun1 in Hrun. injection Hrun as <- <-.
    rewrite (drop_new_calls _ _ _ Hcalls). split.
    + intros ps e [-> Hne]%In_GetLTPs_calls Hfail. unfold GetLTPs_result.
      destruct (misses _) as [|m ms]; [done|]. by rewrite Hfail.
    + intros e He. split; [by eapply Hstore|].
      unfold GetLTPs_calls. apply Forall_app. split; [apply lookups_no_store|].
      unfold GetLTPs_result in He.
      destruct (misses _) as [|m ms]; [done|].
      destruct (GetTickers ext (m :: ms)); [done|]. by repeat constructor.
  - rewrite (GetLTPs_parse_error ext pairsStr e0 w Hparse) in Hrun.
    injection Hrun as <- <-.
    assert (new_calls w w = []) as -> by (apply drop_new_calls; by rewrite app_nil_r).
    split; [done|]. intros e _. split; [done|constructor].
Qed.

(** C4. On the in-memory cache, whatever the upstream: a call of
    [GetLTPs] calls the upstream at most once.  On a specification that
    parses it looks every requested pair up once, in order; it calls the
    upstream not at all when every pair was found fresh (the result is then
    the sorted cached quotes), and else exactly once, with the pairs that
    were not found fresh, in the order of the request. *)
Theorem GetLTPs_fetches_misses_once `{strings_pkg} (ext : External)
    (pairsStr : string) (w w' : World) (r : Res (list LTP)) :
  LTPService_GetLTPs (NewLTPService NewInMemoryCache ext) pairsStr w = (r, w') ->
  (length (List.filter is_CallGetTickers (new_calls w w')) <= 1)%nat /\
  forall pairs, ParsePairs pairsStr = Ok pairs ->
    let looked := probe (store w) (clock w) (reads w) pairs in
    map fst looked = pairs /\
    Forall (fun po => exists m, (reads w <= m < reads w + length pairs)%nat /\
                        snd po = fresh_entry (store w) (clock w m) (fst po))
           looked /\
    List.filter is_CallGetTickers (new_calls w w') =
      match misses looked with
      | [] => []
      | ms => [CallGetTickers ms]
      end /\
    (misses looked = [] ->
       r = Ok (sort_Slice less (hits looked)) /\
       Forall2 (fun pr ltp => exists c, store w !! Value pr = Some c /\
                                        ltp = Cached_LTP c)
               pairs (hits looked)).
Proof.
  intros Hrun.
  assert (forall pairs, ParsePairs pairsStr = Ok pairs ->
            List.filter is_CallGetTickers (new_calls w w') =
              match misses (probe (store w) (clock w) (reads w) pairs) with
              | [] => []
              | ms => [CallGetTickers ms]
              end /\
            r = GetLTPs_result ext (probe (store w) (clock w) (reads w) pairs))
    as Hfetch.
  { intros pairs Hparse.
    destruct (GetLTPs_run ext pairsStr pairs w Hparse)
      as (w1 & Hrun1 & _ & Hcalls & _ & _).
    rewrite Hrun1 in Hrun. injection Hrun as <- <-.
    rewrite (drop_new_calls _ _ _ Hcalls). split; [|done].
    unfold GetLTPs_calls. rewrite List.filter_app, lookups_no_fetch. simpl.
    destruct (misses _) as [|m ms]; [done|]. simpl.
    destruct (GetTickers ext (m :: ms)); [|done]. by rewrite stores_no_fetch. }
  split.
  - destruct (ParsePairs pairsStr) as [pairs|e0] eqn:Hparse.
    + destruct (Hfetch pairs eq_refl) as [-> _].
      destruct (misses _); simpl; lia.
    + rewrite (GetLTPs_parse_error ext pairsStr e0 w Hparse) in Hrun.
      injection Hrun as <- <-.
      assert (new_calls w w = []) as ->
        by (apply drop_new_calls; by rewrite app_nil_r).
      simpl. lia.
  - intros pairs Hparse looked.
    destruct (Hfetch pairs Hparse) as [Hcalls Hres]. fold looked in Hcalls, Hres.
    split_and!; [apply probe_fst|apply probe_readings|done|].
    intros Hm. split; [|by apply probe_all_hits].
    rewrite Hres. unfold GetLTPs_result. by rewrite Hm.
Qed.

(** C5. A lookup in the cache finds nothing when the pair has no entry, and
    nothing when the entry's timestamp lies more than 60 seconds before the
    time of the lookup; otherwise it returns the entry, with [found] true.
    The lookup leaves the map as it is, an expired entry included, and the
    next store for the pair replaces the entry by the new quote, stamped
    with the time of the store. *)
Theorem InMemoryCache_GetLTP_fresh_or_absent (pr : Pair) (w : World) :
  let now := clock w (reads w) in
  let '(r, w') := InMemoryCache_GetLTP pr w in
  (store w !! Value pr = None -> r = (None, false)) /\
  (forall c, store w !! Value pr = Some c ->
             60 * 1000000000 < now - Timestamp c -> r = (None, false)) /\
  (forall c, store w !! Value pr = Some c ->
             now - Timestamp c <= 60 * 1000000000 -> r = (Some c, true)) /\
  store w' = store w /\
  (forall ltp,
     store (snd (InMemoryCache_SetLTP pr ltp w')) !! Value pr
       = Some (mkCachedLTP ltp (clock w' (reads w')))).
Proof.
  intros now. rewrite InMemoryCache_GetLTP_run.
  change (60 * 1000000000) with Minute.
  destruct (store w !! Value pr) as [c|] eqn:E.
  - split_and!; [done| | |done|].
    + intros c' [= <-] Hexp. fold now.
      destruct (Z.ltb_spec Minute (now - Timestamp c)); [done|lia].
    + intros c' [= <-] Hfresh. fold now.
      destruct (Z.ltb_spec Minute (now - Timestamp c)); [lia|done].
    + intros ltp. rewrite InMemoryCache_SetLTP_run. simpl.
      by rewrite lookup_insert_eq.
  - split_and!; [done|done|done|done|].
    intros ltp. rewrite InMemoryCache_SetLTP_run. simpl.
    by rewrite lookup_insert_eq.
Qed.

Lemma GetLTPs_fetch_failure_fails_all_witness :
  let w := world1 0 Second in
  let run := @LTPService_GetLTPs ascii_strings
               (NewLTPService NewInMemoryCache (down ErrNoPairs))
               "BTC/USD,BTC/EUR" w in
  fst run = Err (ErrFetch ErrNoPairs) /\
  store (snd run) = store w /\
  Forall (fun c => is_CallSetLTP c = false) (new_calls w (snd run)).
Proof.
  intros w run.
  destruct (@GetLTPs_fetch_failure_fails_all ascii_strings (down ErrNoPairs)
              "BTC/USD,BTC/EUR" w (snd run) (fst run)) as [Hfetch Herr].
  - vm_compute. reflexivity.
  - assert (fst run = Err (ErrFetch ErrNoPairs)) as Hr.
    { apply (Hfetch [mkPair BTCEUR] ErrNoPairs).
      + vm_compute. right. right. left. reflexivity.
      + reflexivity. }
    split; [exact Hr|]. exact (Herr _ Hr).
Defined.

Lemma GetLTPs_fetches_misses_once_witness :
  let w := world1 0 Second in
  let run := @LTPService_GetLTPs ascii_strings
               (NewLTPService NewInMemoryCache (quoting minus_one))
               "BTC/USD,BTC/EUR" w in
  List.filter is_CallGetTickers (new_calls w (snd run))
    = [CallGetTickers [mkPair BTCEUR]].
Proof.
  intros w run.
  destruct (@GetLTPs_fetches_misses_once ascii_strings (quoting minus_one)
              "BTC/USD,BTC/EUR" w (snd run) (fst run)) as [_ Hparsed].
  - vm_compute. reflexivity.
  - destruct (Hparsed [mkPair BTCUSD; mkPair BTCEUR]) as (_ & _ & Hfetch & _).
    + vm_compute. reflexivity.
    + rewrite Hfetch. vm_compute. reflexivity.
Defined.

Lemma InMemoryCache_GetLTP_fresh_or_absent_witness :
  fst (InMemoryCache_GetLTP (mkPair BTCUSD) (world1 0 (Minute + 1)))
    = (None, false) /\
  fst (InMemoryCache_GetLTP (mkPair BTCUSD) (world1 0 Minute))
    = (Some (mkCachedLTP (mkLTP (mkPair BTCUSD) (S754_zero false)) 0), true).
Proof.
  split.
  - pose proof (InMemoryCache_GetLTP_fresh_or_absent (mkPair BTCUSD)
                  (world1 0 (Minute + 1))) as Hspec.
    simpl in Hspec.
    destruct (InMemoryCache_GetLTP (mkPair BTCUSD) (world1 0 (Minute + 1)))
      as [r w'].
    destruct Hspec as (_ & Hexpired & _).
    apply (Hexpired (mkCachedLTP (mkLTP (mkPair BTCUSD) (S754_zero false)) 0));
      vm_compute; reflexivity.
  - pose proof (InMemoryCache_GetLTP_fresh_or_absent (mkPair BTCUSD)
                  (world1 0 Minute)) as Hspec.
    simpl in Hspec.
    destruct (InMemoryCache_GetLTP (mkPair BTCUSD) (world1 0 Minute))
      as [r w'].
    destruct Hspec as (_ & _ & Hfresh & _).
    apply (Hfresh (mkCachedLTP (mkLTP (mkPair BTCUSD) (S754_zero false)) 0)).
    + vm_compute. reflexivity.
    + vm_compute. discriminate.
Defined.

(** C2. Symbol reconciliation goes by strict precedence, the first match
    winning: (a) the requested symbol itself, when it is a key of the
    response; (b) else, for a symbol "XBT"+suffix, the key "XXBTZ"+suffix,
    else the key "XXBT"+suffix (a symbol without the prefix "XBT" has no
    variant); (c) else, when the response has exactly one key, that key,
    whatever its name; else nothing is found, and [GetTickers], having
    resolved the pairs before, fails with the error that no data was found
    for the pair.  So a response with several keys, none of them the symbol
    or a variant of it, fails. *)
Theorem findKrakenSymbolInResult_precedence `{strconv_pkg}
    (result : gmap string KrakenTickerData) (requestedSymbol : string) :
  (forall suffix, requestedSymbol = "XBT" ++ suffix ->
     variants_of requestedSymbol = ["XXBTZ" ++ suffix; "XXBT" ++ suffix]) /\
  ((forall suffix, requestedSymbol <> "XBT" ++ suffix) ->
     variants_of requestedSymbol = []) /\
  (forall d, result !! requestedSymbol = Some d ->
     findKrakenSymbolInResult result requestedSymbol
       = (d, requestedSymbol, true)) /\
  (forall suffix d, requestedSymbol = "XBT" ++ suffix ->
     result !! requestedSymbol = None ->
     result !! ("XXBTZ" ++ suffix) = Some d ->
     findKrakenSymbolInResult result requestedSymbol
       = (d, "XXBTZ" ++ suffix, true)) /\
  (forall suffix d, requestedSymbol = "XBT" ++ suffix ->
     result !! requestedSymbol = None ->
     result !! ("XXBTZ" ++ suffix) = None ->
     result !! ("XXBT" ++ suffix) = Some d ->
     findKrakenSymbolInResult result requestedSymbol
       = (d, "XXBT" ++ suffix, true)) /\
  (unmatched result requestedSymbol -> size result = 1%nat ->
     exists symbol d, result = {[symbol := d]} /\
       findKrakenSymbolInResult result requestedSymbol = (d, symbol, true)) /\
  (unmatched result requestedSymbol -> size result <> 1%nat ->
     findKrakenSymbolInResult result requestedSymbol
       = (mkTickerData [], "", false)) /\
  (forall k pre pr post resolved,
     requestedSymbol = pairToKrakenSymbol pr ->
     httpClient k (ticker_url k (pre ++ pr :: post))
       = Response StatusOK (Decoded (mkTickerResponse [] result)) ->
     GetTickers_loop result pre [] = Ok resolved ->
     unmatched result requestedSymbol -> size result <> 1%nat ->
     KrakenClient_GetTickers k (pre ++ pr :: post)
       = Err (ErrNoData (Value pr) requestedSymbol)).
Proof.
  assert (unmatched result requestedSymbol -> size result <> 1%nat ->
          findKrakenSymbolInResult result requestedSymbol
            = (mkTickerData [], "", false)) as Hnone.
  { intros Hun Hsize. rewrite (find_unmatched _ _ Hun).
    by destruct (Nat.eqb_spec (size result) 1). }
  split_and!.
  - intros suffix ->. apply variants_of_XBT.
  - apply variants_of_other.
  - intros d Hd. unfold findKrakenSymbolInResult. by rewrite Hd.
  - intros suffix d -> Hexact H1. unfold findKrakenSymbolInResult.
    rewrite Hexact, variants_of_XBT. simpl. by rewrite H1.
  - intros suffix d -> Hexact H1 H2. unfold findKrakenSymbolInResult.
    rewrite Hexact, variants_of_XBT. simpl. by rewrite H1, H2.
  - intros Hun Hsize. rewrite (find_unmatched _ _ Hun), Hsize. simpl.
    destruct (size_1_singleton result Hsize) as (symbol & d & -> & Hfirst).
    exists symbol, d. by rewrite Hfirst.
  - exact Hnone.
  - intros k pre pr post resolved Hsym Hnet Hpre Hun Hsize.
    rewrite (GetTickers_decoded k _ result); [|by destruct pre|done].
    rewrite GetTickers_loop_app, Hpre. simpl.
    rewrite <- Hsym, (Hnone Hun Hsize). done.
Qed.

Lemma findKrakenSymbolInResult_precedence_witness :
  let result : gmap string KrakenTickerData :=
    <["OTHER1" := mkTickerData ["100"]]> {[ "OTHER2" := mkTickerData ["200"] ]} in
  findKrakenSymbolInResult result "XBTUSD" = (mkTickerData [], "", false) /\
  @KrakenClient_GetTickers integer_strconv
    (mkKrakenClient "" (answering result)) [mkPair BTCUSD]
    = Err (ErrNoData "BTC/USD" "XBTUSD").
Proof.
  intros result.
  destruct (@findKrakenSymbolInResult_precedence integer_strconv result "XBTUSD")
    as (_ & _ & _ & _ & _ & _ & Hnone & Hcall).
  assert (unmatched result "XBTUSD") as Hun.
  { split; [reflexivity|].
    intros v [<-|[<-|[]]]; reflexivity. }
  assert (size result <> 1%nat) as Hsize by (vm_compute; discriminate).
  split; [exact (Hnone Hun Hsize)|].
  apply (Hcall (mkKrakenClient "" (answering result)) [] (mkPair BTCUSD) [] []);
    [reflexivity|reflexivity|reflexivity|exact Hun|exact Hsize].
Defined.

(** C9 (as stated, refuted). The response gives "-1" as the last price of
    BTC/USD: [GetTickers] succeeds with a quote whose amount is -1, which is
    not non-negative; [GetLTPs] returns that quote and stores it in the
    cache. *)
Lemma GetTickers_negative_amount :
  let net := answering {[ "XXBTZUSD" := mkTickerData ["-1"] ]} in
  let quote := mkLTP (mkPair BTCUSD) minus_one in
  let run := @LTPService_GetLTPs ascii_strings
               (NewLTPService NewInMemoryCache
                  (@NewKrakenClient integer_strconv net ""))
               "BTC/USD" (world0 0) in
  @KrakenClient_GetTickers integer_strconv (mkKrakenClient "" net)
    [mkPair BTCUSD] = Ok [quote] /\
  nonneg (Amount quote) = false /\
  fst run = Ok [quote] /\
  store (snd run) !! BTCUSD = Some (mkCachedLTP quote 0).
Proof. repeat split; vm_compute; reflexivity. Qed.

(** C9 (amended). Every quote [GetTickers] returns is the quote of the pair
    requested at its position, and its amount is what [strconv.ParseFloat]
    returns for the first price of the record the pair's symbol resolves
    to; the sign of that number is looked at nowhere. So the amounts are
    non-negative when the first prices of the response parse to
    non-negative numbers; and when that holds of everything the network
    answers, it holds of every quote [GetTickers] returns, of every quote
    [GetLTPs] returns and of every quote in the cache: after one call on a
    cache whose quotes are non-negative, and after any sequence of calls
    that starts with the empty cache. *)
Theorem amounts_are_parsed_prices `{strings_pkg} `{strconv_pkg}
    (k : KrakenClient) :
  let ext := {| GetTicker := KrakenClient_GetTicker k;
                GetTickers := KrakenClient_GetTickers k |} in
  let svc := NewLTPService NewInMemoryCache ext in
  (forall pairs ltps,
     KrakenClient_GetTickers k pairs = Ok ltps ->
     exists tickerResp,
       httpClient k (ticker_url k pairs)
         = Response StatusOK (Decoded tickerResp) /\
       Forall2 (parsed_from (Result tickerResp)) pairs ltps /\
       ((forall symbol d c0 rest amount,
           Result tickerResp !! symbol = Some d -> C d = c0 :: rest ->
           ParseFloat c0 = Some amount -> nonneg amount = true) ->
        Forall (fun ltp => nonneg (Amount ltp) = true) ltps)) /\
  (nonneg_prices (httpClient k) ->
     (forall pairs ltps,
        KrakenClient_GetTickers k pairs = Ok ltps ->
        Forall (fun ltp => nonneg (Amount ltp) = true) ltps) /\
     (forall pairsStr w,
        cache_nonneg (store w) ->
        let run := LTPService_GetLTPs svc pairsStr w in
        (forall ltps, fst run = Ok ltps ->
                      Forall (fun ltp => nonneg (Amount ltp) = true) ltps) /\
        cache_nonneg (store (snd run))) /\
     (forall requests w,
        store w = ∅ ->
        let run := serve_all (LTPService_GetLTPs svc) requests w in
        Forall (fun r => forall ltps, r = Ok ltps ->
                  Forall (fun ltp => nonneg (Amount ltp) = true) ltps)
               (fst run) /\
        cache_nonneg (store (snd run)))).
Proof.
  intros ext svc.
  assert (forall pairs ltps,
            KrakenClient_GetTickers k pairs = Ok ltps ->
            exists tickerResp,
              httpClient k (ticker_url k pairs)
                = Response StatusOK (Decoded tickerResp) /\
              Forall2 (parsed_from (Result tickerResp)) pairs ltps /\
              ((forall symbol d c0 rest amount,
                  Result tickerResp !! symbol = Some d -> C d = c0 :: rest ->
                  ParseFloat c0 = Some amount -> nonneg amount = true) ->
               Forall (fun ltp => nonneg (Amount ltp) = true) ltps)) as Hparsed.
  { intros pairs ltps (tickerResp & Hnet & _ & Hloop)%GetTickers_Ok.
    exists tickerResp. split; [done|].
    apply GetTickers_loop_Ok in Hloop as (new & -> & Hall). simpl.
    split; [done|]. intros Hprices. clear Hnet.
    induction Hall as [|pr ltp prs new Hp _ IH]; [constructor|].
    constructor; [|done].
    destruct Hp as (_ & d & found & c0 & rest & Hfind & HC & Hparse).
    apply find_found in Hfind. eauto. }
  split; [exact Hparsed|]. intros Hsign.
  assert (forall ps ltps, GetTickers ext ps = Ok ltps ->
            Forall (fun ltp => nonneg (Amount ltp) = true) ltps) as Hfetched.
  { intros ps ltps Hget.
    destruct (Hparsed ps ltps Hget) as (tickerResp & Hnet & _ & Himp).
    apply Himp. intros symbol d c0 rest amount. by apply (Hsign _ _ _ _ _ _ _ Hnet). }
  split_and!.
  - exact Hfetched.
  - intros pairsStr w Hst.
    exact (GetLTPs_preserves ext _ Hfetched pairsStr w Hst).
  - intros requests w Hempty.
    apply (serve_all_preserves ext _ Hfetched requests w).
    intros k0 c. by rewrite Hempty, lookup_empty.
Qed.

Lemma sample_tickers_nonneg :
  @nonneg_prices integer_strconv (answering sample_tickers).
Proof.
  intros url tickerResp symbol d c0 rest amount Hnet Hd HC Hparse.
  unfold answering, always in Hnet. injection Hnet as <-. simpl in Hd.
  unfold sample_tickers in Hd.
  apply lookup_insert_Some in Hd as [[_ <-]|[_ Hd]];
    [|apply lookup_insert_Some in Hd as [[_ <-]|[_ Hd]];
      [|apply lookup_singleton_Some in Hd as [_ <-]]];
    simpl in HC; injection HC as <- _;
    vm_compute in Hparse; injection Hparse as <-; reflexivity.
Qed.

Lemma amounts_are_parsed_prices_witness :
  let net := answering sample_tickers in
  let svc := NewLTPService NewInMemoryCache
               (@NewKrakenClient integer_strconv net "") in
  let run := serve_all (@LTPService_GetLTPs ascii_strings svc)
               ["btc/usd"; ""] (world0 0) in
  map (fun r => match r with Ok ltps => map key ltps | Err _ => [] end)
      (fst run) = [[BTCUSD]; [BTCCHF; BTCEUR; BTCUSD]] /\
  Forall (fun r => forall ltps, r = Ok ltps ->
            Forall (fun ltp => nonneg (Amount ltp) = true) ltps)
         (fst run) /\
  cache_nonneg (store (snd run)).
Proof.
  intros net svc run. split; [vm_compute; reflexivity|].
  pose proof (@amounts_are_parsed_prices ascii_strings integer_strconv
                (mkKrakenClient "https://api.kraken.com/0/public" net))
    as Hthm.
  cbv zeta in Hthm. destruct Hthm as [_ Hsys].
  destruct (Hsys sample_tickers_nonneg) as (_ & _ & Hseq).
  apply (Hseq ["btc/usd"; ""] (world0 0)). reflexivity.
Defined.

Lemma GetTickers_loop_singleton `{strconv_pkg} (symbol : string)
    (d : KrakenTickerData) (c0 : string) (rest : list string)
    (amount : float64) (pairs : list Pair) (result : list LTP) :
  C d = c0 :: rest -> c0 <> "" -> ParseFloat c0 = Some amount ->
  GetTickers_loop {[symbol := d]} pairs result
    = Ok (result ++ map (fun pr => mkLTP pr amount) pairs)%list.
Proof.
  intros HC Hc0 Hparse. revert result.
  induction pairs as [|pr pairs IH]; intros result; simpl.
  - by rewrite app_nil_r.
  - rewrite find_singleton. simpl. rewrite HC.
    destruct (String.eqb_spec c0 "") as [|_]; [done|].
    rewrite Hparse, IH. by rewrite <- app_assoc.
Qed.

Lemma GetTickers_loop_singleton_found `{strconv_pkg} (symbol : string)
    (d : KrakenTickerData) (pairs : list Pair) (result : list LTP)
    (pair requested : string) :
  GetTickers_loop {[symbol := d]} pairs result <> Err (ErrNoData pair requested).
Proof.
  revert result. induction pairs as [|pr pairs IH]; intros result; simpl.
  - done.
  - rewrite find_singleton. simpl.
    destruct (C d) as [|c0 rest]; [done|].
    destruct (String.eqb c0 ""); [done|].
    destruct (ParseFloat c0); [apply IH|done].
Qed.

(** C10. [GetTickers] is called with two or more distinct pairs, and the
    response has exactly one key, which is neither the symbol of a
    requested pair nor a variant of one.  Then every requested pair
    resolves to that one record, the call does not fail with the error
    that no data was found for a symbol, and, the first price of the record
    being one that parses, the call succeeds and returns, for each
    requested pair, a quote with that same amount. *)
Theorem GetTickers_singleton_answers_all `{strconv_pkg} (k : KrakenClient)
    (pairs : list Pair) (symbol : string) (d : KrakenTickerData) :
  (2 <= length pairs)%nat ->
  NoDup pairs ->
  httpClient k (ticker_url k pairs)
    = Response StatusOK (Decoded (mkTickerResponse [] {[symbol := d]})) ->
  (forall pr, In pr pairs -> unmatched {[symbol := d]} (pairToKrakenSymbol pr)) ->
  (forall pr, In pr pairs ->
     findKrakenSymbolInResult {[symbol := d]} (pairToKrakenSymbol pr)
       = (d, symbol, true)) /\
  (forall pair requested,
     KrakenClient_GetTickers k pairs <> Err (ErrNoData pair requested)) /\
  (forall c0 rest amount,
     C d = c0 :: rest -> c0 <> "" -> ParseFloat c0 = Some amount ->
     KrakenClient_GetTickers k pairs
       = Ok (map (fun pr => mkLTP pr amount) pairs)).
Proof.
  intros Hlen _ Hnet _.
  rewrite (GetTickers_decoded k pairs {[symbol := d]});
    [|intros ->; simpl in Hlen; lia|done].
  split_and!.
  - intros pr _. apply find_singleton.
  - intros pair requested. apply GetTickers_loop_singleton_found.
  - intros c0 rest amount HC Hc0 Hparse.
    by rewrite (GetTickers_loop_singleton symbol d c0 rest amount).
Qed.

Lemma GetTickers_singleton_answers_all_witness :
  let d := mkTickerData ["50000"] in
  let k := mkKrakenClient "" (answering {[ "UNKNOWN" := d ]}) in
  let pairs := [mkPair BTCUSD; mkPair BTCEUR] in
  @KrakenClient_GetTickers integer_strconv k pairs
    = Ok (map (fun pr => mkLTP pr (S754_finite false 6871947673600000 (-37)))
              pairs).
Proof.
  intros d k pairs.
  destruct (@GetTickers_singleton_answers_all integer_strconv k pairs
              "UNKNOWN" d) as (_ & _ & Hok).
  - simpl. lia.
  - apply NoDup_cons_2; [|apply NoDup_singleton].
    intros Hin%list_elem_of_singleton. discriminate Hin.
  - reflexivity.
  - intros pr [<-|[<-|[]]]; (split; [reflexivity|]);
      intros v [<-|[<-|[]]]; reflexivity.
  - apply (Hok "50000" []).
    + reflexivity.
    + discriminate.
    + vm_compute. reflexivity.
Defined.

(** C8 (what the code does instead). Whatever error [GetLTPs] returns, the
    handler answers with status 400 and the error as the body: a failure of
    the upstream gets the status of an invalid request, not the status 500
    that the annotations of the handler announce. *)
Theorem Handler_GetLTP_any_error_is_bad_request (h : Handler)
    (pairsStr : string) (w w' : World) (e : error) :
  ltpService h pairsStr w = (Err e, w') ->
  Handler_GetLTP h pairsStr w = (mkReply 400 (ErrorResponse e), w').
Proof.
  intros Hrun. unfold Handler_GetLTP, bind. by rewrite Hrun.
Qed.

Lemma Handler_GetLTP_any_error_is_bad_request_witness :
  let h := @server ascii_strings integer_strconv
             (always (Response 503 (Unreadable ""))) in
  fst (Handler_GetLTP h "BTC/USD" (world0 0))
    = mkReply 400 (ErrorResponse (ErrFetch (ErrStatus 503))) /\
  fst (Handler_GetLTP h "BTC/GBP" (world0 0))
    = mkReply 400 (ErrorResponse (ErrInvalidPairs (ErrInvalidPair "BTC/GBP"))).
Proof.
  intros h. split.
  - rewrite (Handler_GetLTP_any_error_is_bad_request h "BTC/USD" (world0 0)
               (snd (ltpService h "BTC/USD" (world0 0)))
               (ErrFetch (ErrStatus 503))); [reflexivity|].
    vm_compute. reflexivity.
  - rewrite (Handler_GetLTP_any_error_is_bad_request h "BTC/GBP" (world0 0)
               (world0 0) (ErrInvalidPairs (ErrInvalidPair "BTC/GBP")));
      [reflexivity|].
    vm_compute. reflexivity.
Defined.

(* ===================================================================== *)
(** * Part IV. The repository's tests, run on the model                   *)
(* ===================================================================== *)

(** client_test.go, TestPairToKrakenSymbol. *)
Example test_pairToKrakenSymbol :
  map pairToKrakenSymbol [mkPair BTCUSD; mkPair BTCCHF; mkPair BTCEUR]
    = ["XBTUSD"; "XBTCHF"; "XBTEUR"].
Proof. reflexivity. Qed.

(** client_test.go, TestFindKrakenSymbolInResult. *)
Example test_find_exact_match :
  findKrakenSymbolInResult {[ "XBTUSD" := mkTickerData ["50000.12"] ]} "XBTUSD"
    = (mkTickerData ["50000.12"], "XBTUSD", true).
Proof. reflexivity. Qed.

Example test_find_variant_match :
  findKrakenSymbolInResult {[ "XXBTZUSD" := mkTickerData ["50000.12"] ]} "XBTUSD"
    = (mkTickerData ["50000.12"], "XXBTZUSD", true).
Proof. reflexivity. Qed.

Example test_find_single_result_fallback :
  findKrakenSymbolInResult {[ "UNKNOWN" := mkTickerData ["50000.12"] ]} "XBTUSD"
    = (mkTickerData ["50000.12"], "UNKNOWN", true).
Proof. reflexivity. Qed.

Example test_find_not_found_multiple_results :
  findKrakenSymbolInResult
    (<["OTHER1" := mkTickerData ["50000.12"]]>
       {[ "OTHER2" := mkTickerData ["60000.12"] ]}) "XBTUSD"
    = (mkTickerData [], "", false).
Proof. vm_compute. reflexivity. Qed.

(** client_test.go, TestKrakenClient_GetTickers_EmptyPairs, _HTTPError,
    _APIError and _InvalidTickerData. *)
Example test_GetTickers_failures :
  let get net := @KrakenClient_GetTickers integer_strconv
                   (mkKrakenClient "https://api.kraken.com/0/public" net) in
  get (answering ∅) [] = Err ErrNoPairs /\
  get (always (Response 500 (Unreadable ""))) [mkPair BTCUSD]
    = Err (ErrStatus 500) /\
  get (always (Response 200 (Decoded
         (mkTickerResponse ["EQuery:Unknown asset pair"] ∅)))) [mkPair BTCUSD]
    = Err (ErrKrakenAPI ["EQuery:Unknown asset pair"]) /\
  get (answering {[ "XXBTZUSD" := mkTickerData [] ]}) [mkPair BTCUSD]
    = Err (ErrInvalidTicker "BTC/USD" "XXBTZUSD") /\
  get (answering {[ "XXBTZUSD" := mkTickerData ["invalid"] ]}) [mkPair BTCUSD]
    = Err (ErrParseAmount "BTC/USD" "XXBTZUSD").
Proof. repeat split. Qed.

(** The URL of a batch: one call with the symbols joined by commas. *)
Example test_ticker_url :
  ticker_url (mkKrakenClient "https://api.kraken.com/0/public" (answering ∅))
             [mkPair BTCUSD; mkPair BTCEUR]
    = "https://api.kraken.com/0/public/Ticker?pair=XBTUSD,XBTEUR".
Proof. reflexivity. Qed.

(** api_test.go, TestGetLTP_MultiplePairs and the cache tests: the request
    "BTC/USD,BTC/EUR" on an empty cache makes one upstream call and returns
    the quotes sorted; asked again within the minute it makes none and
    returns the same quotes; asked after more than a minute it makes one
    again. *)
Example test_cache_hit_then_expiry :
  let net := answering (<["XXBTZUSD" := mkTickerData ["52000"]]>
                          {[ "XXBTZEUR" := mkTickerData ["50000"] ]}) in
  let get := @LTPService_GetLTPs ascii_strings
               (NewLTPService NewInMemoryCache
                  (@NewKrakenClient integer_strconv net "")) "BTC/USD,BTC/EUR" in
  let clk (n : nat) : Time := if (n <? 4)%nat then 0 else 61 * Second in
  let w0 := mkWorld ∅ clk 0 [] in
  let run1 := get w0 in
  let run2 := get (snd run1) in
  let run3 := get (snd run2) in
  let both := [mkPair BTCUSD; mkPair BTCEUR] in
  option_map (map key) (match fst run1 with Ok l => Some l | Err _ => None end)
    = Some ["BTC/EUR"; "BTC/USD"] /\
  fst run2 = fst run1 /\
  fst run3 = fst run1 /\
  List.filter is_CallGetTickers (new_calls w0 (snd run1)) = [CallGetTickers both] /\
  List.filter is_CallGetTickers (new_calls (snd run1) (snd run2)) = [] /\
  List.filter is_CallGetTickers (new_calls (snd run2) (snd run3))
    = [CallGetTickers both].
Proof. repeat split; vm_compute; reflexivity. Qed.

(* ===================================================================== *)
(** * Part V. Further properties of the code                              *)
(* ===================================================================== *)

(** ** package domain *)

Lemma validPairs_catalog (v : string) :
  index_bool validPairs v = true <-> In v catalog.
Proof.
  unfold index_bool, validPairs, catalog. split.
  - destruct (decide (v = BTCUSD)) as [->|H1]; [by left|].
    destruct (decide (v = BTCCHF)) as [->|H2]; [by right; left|].
    destruct (decide (v = BTCEUR)) as [->|H3]; [by right; right; left|].
    rewrite !lookup_insert_ne, lookup_empty by done. done.
  - intros [<-|[<-|[<-|[]]]]; reflexivity.
Qed.

Section DomainFacts.
Context `{strings_pkg}.

(** X1. [NewPair] and [IsValidPair] agree: [NewPair] returns a pair exactly
    for the strings [IsValidPair] accepts; the pair holds the trimmed,
    upper-cased string, which is one of the three catalog values; every
    other string gets the invalid-pair error that names its trimmed,
    upper-cased form. *)
Theorem NewPair_agrees_with_IsValidPair (value : string) :
  (forall pr, NewPair value = Ok pr <->
     IsValidPair value = true /\ pr = mkPair (ToUpper (TrimSpace value))) /\
  (forall pr, NewPair value = Ok pr -> In (Value pr) catalog) /\
  (forall e, NewPair value = Err e <->
     IsValidPair value = false /\
     e = ErrInvalidPair (ToUpper (TrimSpace value))).
Proof.
  unfold NewPair, IsValidPair.
  destruct (index_bool validPairs (ToUpper (TrimSpace value))) eqn:E; simpl.
  - split_and!.
    + intros pr. split; [by intros [= <-]|by intros [_ ->]].
    + intros pr [= <-]. by apply validPairs_catalog.
    + intros e. split; [done|by intros [? _]].
  - split_and!.
    + intros pr. split; [done|by intros [? _]].
    + done.
    + intros e. split; [by intros [= <-]|by intros [_ ->]].
Qed.

Lemma filter_filter_weaker {A} (P Q : A -> bool) (l : list A) :
  (forall x, P x = true -> Q x = true) ->
  List.filter P (List.filter Q l) = List.filter P l.
Proof.
  intros HPQ. induction l as [|x l IH]; simpl; [done|].
  destruct (Q x) eqn:EQ; simpl.
  - by rewrite IH.
  - destruct (P x) eqn:EP; [|done]. apply HPQ in EP. congruence.
Qed.

Lemma filter_andb {A} (P Q : A -> bool) (l : list A) :
  List.filter (fun x => P x && Q x) l = List.filter P (List.filter Q l).
Proof.
  induction l as [|x l IH]; simpl; [done|].
  destruct (Q x) eqn:EQ, (P x) eqn:EP; simpl; rewrite ?EP; by rewrite IH.
Qed.

Lemma index_bool_insert_bool (seen : gmap string bool) (k v : string) :
  index_bool (<[k := true]> seen) v = String.eqb k v || index_bool seen v.
Proof.
  unfold index_bool. destruct (String.eqb_spec k v) as [->|Hne].
  - by rewrite lookup_insert_eq.
  - by rewrite lookup_insert_ne.
Qed.

(** The loop on valid tokens, in closed form. *)
Lemma ParsePairs_loop_first_occurrences (toks : list string)
    (result : list Pair) (seen : gmap string bool) :
  Forall (fun t => IsValidPair t = true) toks ->
  ParsePairs_loop toks result seen =
    Ok (result ++
        map mkPair
          (List.filter (fun u => negb (index_bool seen u))
             (first_occurrences (map (fun t => ToUpper (TrimSpace t)) toks))))%list.
Proof.
  revert result seen.
  induction toks as [|t toks IH]; intros result seen Hval; simpl.
  - by rewrite app_nil_r.
  - apply Forall_cons in Hval as [Ht Hval].
    rewrite (NewPair_valid t Ht). simpl.
    set (v0 := ToUpper (TrimSpace t)).
    destruct (index_bool seen v0) eqn:Hs; simpl.
    + rewrite IH by done. do 3 f_equal. symmetry.
      apply filter_filter_weaker. intros u Hu.
      destruct (String.eqb_spec v0 u) as [<-|]; [|done].
      by rewrite Hs in Hu.
    + rewrite IH by done. rewrite <- app_assoc. simpl. do 4 f_equal.
      rewrite <- filter_andb. apply List.filter_ext. intros u.
      rewrite index_bool_insert_bool. by destruct (String.eqb v0 u), (index_bool seen u).
Qed.

(** X2. On a non-empty specification whose tokens are all valid,
    [ParsePairs] returns the pairs of the trimmed, upper-cased tokens in
    the order of their first occurrence, each once.  So the result depends
    on the tokens only through their trimmed, upper-cased forms. *)
Theorem ParsePairs_first_occurrences (pairsStr : string) :
  pairsStr <> "" ->
  Forall (fun t => IsValidPair t = true) (Split pairsStr ",") ->
  ParsePairs pairsStr =
    Ok (map mkPair
          (first_occurrences
             (map (fun t => ToUpper (TrimSpace t)) (Split pairsStr ",")))).
Proof.
  intros Hne Hval. unfold ParsePairs.
  destruct (String.eqb_spec pairsStr "") as [|_]; [done|].
  rewrite ParsePairs_loop_first_occurrences by done. simpl.
  rewrite (List.filter_ext _ (fun _ => true)).
  2:{ intros u. unfold index_bool. by rewrite lookup_empty. }
  rewrite List.filter_true.
  pose proof (Split_nonempty pairsStr ",") as Hsp.
  by destruct (Split pairsStr ",").
Qed.

Lemma ParsePairs_loop_first_invalid (pre post : list string) (t : string)
    (result : list Pair) (seen : gmap string bool) :
  Forall (fun t => IsValidPair t = true) pre ->
  IsValidPair t = false ->
  ParsePairs_loop (pre ++ t :: post) result seen
    = Err (ErrInvalidPair (ToUpper (TrimSpace t))).
Proof.
  revert result seen.
  induction pre as [|t0 pre IH]; intros result seen Hpre Ht; simpl.
  - by rewrite (NewPair_invalid t Ht).
  - apply Forall_cons in Hpre as [Ht0 Hpre].
    rewrite (NewPair_valid t0 Ht0). simpl.
    destruct (index_bool seen _); simpl; by apply IH.
Qed.

Lemma first_invalid (toks : list string) :
  Forall (fun t => IsValidPair t = true) toks \/
  exists pre t post, toks = (pre ++ t :: post)%list /\
    Forall (fun t => IsValidPair t = true) pre /\ IsValidPair t = false.
Proof.
  induction toks as [|t toks IH]; [by left|].
  destruct (IsValidPair t) eqn:Ht.
  - destruct IH as [Hall|(pre & t' & post & -> & Hpre & Ht')].
    + left. by constructor.
    + right. exists (t :: pre), t', post. split_and!; [done| |done].
      by constructor.
  - right. exists [], t, toks. by split_and!.
Qed.

(** X3. The only error [ParsePairs] returns is the invalid-pair error of
    the first token that is not valid: every token before it is valid, and
    the error "at least one valid pair must be specified" is never
    returned. *)
Theorem ParsePairs_error_is_first_invalid_token (pairsStr : string) (e : error) :
  ParsePairs pairsStr = Err e ->
  e <> ErrNoValidPair /\
  exists pre t post,
    tokens pairsStr = (pre ++ t :: post)%list /\
    Forall (fun t => IsValidPair t = true) pre /\
    IsValidPair t = false /\
    e = ErrInvalidPair (ToUpper (TrimSpace t)).
Proof.
  intros Herr.
  assert (exists pre t post,
            tokens pairsStr = (pre ++ t :: post)%list /\
            Forall (fun t => IsValidPair t = true) pre /\
            IsValidPair t = false /\
            e = ErrInvalidPair (ToUpper (TrimSpace t))) as Hex.
  { destruct (first_invalid (tokens pairsStr))
      as [Hall|(pre & t & post & Htok & Hpre & Ht)].
    - destruct (ParsePairs_valid pairsStr Hall) as (pairs & Hok & _). congruence.
    - exists pre, t, post. split_and!; [done..|].
      unfold tokens, ParsePairs in *.
      destruct (String.eqb_spec pairsStr "") as [|_].
      + by destruct pre.
      + rewrite Htok, (ParsePairs_loop_first_invalid pre post t) in Herr by done.
        congruence. }
  split; [|done]. destruct Hex as (_ & t & _ & _ & _ & _ & ->). done.
Qed.
End DomainFacts.

Lemma ParsePairs_error_is_first_invalid_token_witness :
  @ParsePairs ascii_strings "btc/usd,,BTC/GBP" = Err (ErrInvalidPair "") /\
  exists pre t post,
    tokens "btc/usd,,BTC/GBP" = (pre ++ t :: post)%list /\
    Forall (fun t => @IsValidPair ascii_strings t = true) pre /\
    @IsValidPair ascii_strings t = false /\
    ErrInvalidPair "" = ErrInvalidPair (upper_bytes (trim_right (trim_left t))).
Proof.
  split; [reflexivity|].
  apply (@ParsePairs_error_is_first_invalid_token ascii_strings
           "btc/usd,,BTC/GBP" (ErrInvalidPair "")).
  reflexivity.
Defined.

Lemma ParsePairs_first_occurrences_witness :
  @ParsePairs ascii_strings "btc/eur, BTC/USD ,BTC/EUR"
    = Ok [mkPair BTCEUR; mkPair BTCUSD].
Proof.
  rewrite (@ParsePairs_first_occurrences ascii_strings).
  - reflexivity.
  - discriminate.
  - vm_compute. repeat constructor.
Defined.

(** ** package kraken *)

Lemma find_variant_In (result : gmap string KrakenTickerData)
    (variants : list string) (d : KrakenTickerData) (v : string) :
  find_variant result variants = Some (d, v) -> In v variants.
Proof.
  induction variants as [|v' vs IH]; simpl; [done|].
  destruct (result !! v') as [d'|]; [intros [= <- <-]; by left|].
  intros Hv. right. by apply IH.
Qed.

Lemma find_variant_None_inv (result : gmap string KrakenTickerData)
    (variants : list string) :
  find_variant result variants = None ->
  forall v, In v variants -> result !! v = None.
Proof.
  induction variants as [|v' vs IH]; simpl; [done|].
  destruct (result !! v') as [d'|] eqn:E; [done|].
  intros Hv v [<-|Hin]; [done|]. by apply IH.
Qed.

Lemma find_inversion (result : gmap string KrakenTickerData)
    (requestedSymbol foundSymbol : string) (d : KrakenTickerData) (ok : bool) :
  findKrakenSymbolInResult result requestedSymbol = (d, foundSymbol, ok) ->
  (ok = true /\ result !! foundSymbol = Some d /\
   (foundSymbol = requestedSymbol \/
    In foundSymbol (variants_of requestedSymbol) \/
    (unmatched result requestedSymbol /\ result = {[foundSymbol := d]}))) \/
  (ok = false /\ d = mkTickerData [] /\ foundSymbol = "" /\
   unmatched result requestedSymbol /\ size result <> 1%nat).
Proof.
  unfold findKrakenSymbolInResult.
  destruct (result !! requestedSymbol) as [d0|] eqn:E.
  { intros [= <- <- <-]. left. split_and!; [done|done|by left]. }
  destruct (find_variant result (variants_of requestedSymbol))
    as [[d0 v]|] eqn:Ev.
  { intros [= <- <- <-]. left. split_and!; [done| |].
    - by apply find_variant_Some in Ev.
    - right. left. by apply find_variant_In in Ev. }
  assert (unmatched result requestedSymbol) as Hun.
  { split; [done|]. by apply find_variant_None_inv. }
  destruct (Nat.eqb_spec (size result) 1) as [Hsize|Hsize].
  - destruct (size_1_singleton result Hsize) as (k & d0 & Hres & ->).
    intros [= <- <- <-]. left. split_and!; [done| |].
    + rewrite Hres. apply lookup_singleton_eq.
    + right. right. done.
  - intros [= <- <- <-]. right. done.
Qed.

(** X4. What [findKrakenSymbolInResult] reports as found is a record of the
    response, under the key it reports, and that key is the requested
    symbol, or one of its variants, or the only key of the response.  It
    reports nothing found exactly when the response holds neither the
    symbol nor a variant and does not have exactly one key; it then
    returns the empty record and the empty symbol. *)
Theorem findKrakenSymbolInResult_sound
    (result : gmap string KrakenTickerData) (requestedSymbol : string) :
  let '(tickerData, foundSymbol, ok) :=
    findKrakenSymbolInResult result requestedSymbol in
  (ok = true ->
     result !! foundSymbol = Some tickerData /\
     (foundSymbol = requestedSymbol \/
      In foundSymbol (variants_of requestedSymbol) \/
      result = {[foundSymbol := tickerData]})) /\
  (ok = false <->
     unmatched result requestedSymbol /\ size result <> 1%nat) /\
  (ok = false -> tickerData = mkTickerData [] /\ foundSymbol = "").
Proof.
  destruct (findKrakenSymbolInResult result requestedSymbol)
    as [[d k] ok] eqn:E.
  pose proof (find_inversion _ _ _ _ _ E) as Hinv.
  split_and!.
  - intros ->. destruct Hinv as [(_ & Hd & Hk)|(? & _)]; [|done].
    split; [done|]. destruct Hk as [?|[?|[_ ?]]]; auto.
  - split.
    + intros ->. destruct Hinv as [(? & _)|(_ & _ & _ & ? & ?)]; done.
    + intros [Hun Hsize]. rewrite (find_unmatched _ _ Hun) in E.
      destruct (Nat.eqb_spec (size result) 1); [done|]. congruence.
  - intros ->. destruct Hinv as [(? & _)|(_ & ? & ? & _)]; done.
Qed.

Lemma pairToKrakenSymbol_catalog (v : string) :
  In v catalog ->
  exists cur, In cur ["USD"; "CHF"; "EUR"] /\ v = "BTC/" ++ cur /\
              pairToKrakenSymbol (mkPair v) = "XBT" ++ cur.
Proof.
  intros [<-|[<-|[<-|[]]]].
  - exists "USD". split_and!; [by left|done|done].
  - exists "CHF". split_and!; [by right; left|done|done].
  - exists "EUR". split_and!; [by right; right; left|done|done].
Qed.

(** X5. [pairToKrakenSymbol] sends the catalog pair BTC/cur to the symbol
    XBTcur, and the keys the reconciliation can match for two different
    catalog pairs are disjoint: in a response that does not consist of a
    single key, two different catalog pairs are never resolved to the same
    key. *)
Theorem catalog_pairs_resolve_to_different_keys
    (result : gmap string KrakenTickerData) (p q : Pair)
    (dp dq : KrakenTickerData) (kp kq : string) :
  In (Value p) catalog -> In (Value q) catalog -> p <> q ->
  size result <> 1%nat ->
  findKrakenSymbolInResult result (pairToKrakenSymbol p) = (dp, kp, true) ->
  findKrakenSymbolInResult result (pairToKrakenSymbol q) = (dq, kq, true) ->
  (exists cur, Value p = "BTC/" ++ cur /\ pairToKrakenSymbol p = "XBT" ++ cur) /\
  kp <> kq.
Proof.
  intros Hp Hq Hpq Hsize Fp Fq.
  destruct p as [vp], q as [vq]. simpl in Hp, Hq.
  destruct (pairToKrakenSymbol_catalog vp Hp) as (cp & Hcp & -> & Sp).
  destruct (pairToKrakenSymbol_catalog vq Hq) as (cq & Hcq & -> & Sq).
  split; [by exists cp|].
  rewrite Sp in Fp. rewrite Sq in Fq.
  apply find_inversion in Fp as [(_ & _ & Kp)|(? & _)]; [|done].
  apply find_inversion in Fq as [(_ & _ & Kq)|(? & _)]; [|done].
  rewrite variants_of_XBT in Kp, Kq.
  assert (cp <> cq) as Hne by (intros ->; done).
  assert (forall k d, result <> {[k := d]}) as Hns.
  { intros k d ->. by rewrite map_size_singleton in Hsize. }
  destruct Kp as [->|[[<-|[<-|[]]]|[_ Hs]]]; [| | |by apply Hns in Hs];
    (destruct Kq as [->|[[<-|[<-|[]]]|[_ Hs]]]; [| | |by apply Hns in Hs]);
    destruct Hcp as [<-|[<-|[<-|[]]]]; destruct Hcq as [<-|[<-|[<-|[]]]];
    done.
Qed.

Lemma catalog_pairs_resolve_to_different_keys_witness :
  let result : gmap string KrakenTickerData :=
    <["XXBTZUSD" := mkTickerData ["52000"]]>
      {[ "XBTEUR" := mkTickerData ["50000"] ]} in
  (exists cur, Value (mkPair BTCUSD) = "BTC/" ++ cur /\
               pairToKrakenSymbol (mkPair BTCUSD) = "XBT" ++ cur) /\
  "XXBTZUSD" <> "XBTEUR".
Proof.
  intros result.
  apply (catalog_pairs_resolve_to_different_keys result
           (mkPair BTCUSD) (mkPair BTCEUR)
           (mkTickerData ["52000"]) (mkTickerData ["50000"])).
  - by left.
  - by right; right; left.
  - discriminate.
  - vm_compute. discriminate.
  - vm_compute. reflexivity.
  - vm_compute. reflexivity.
Defined.

Section KrakenMore.
Context `{strconv_pkg}.

Lemma GetTickers_loop_quoted (tickers : gmap string KrakenTickerData)
    (pairs : list Pair) (result out : list LTP) :
  GetTickers_loop tickers pairs result = Ok out <->
  exists new, out = (result ++ new)%list /\
              Forall2 (quoted_by tickers) pairs new.
Proof.
  revert result. induction pairs as [|pr pairs IH]; intros result; simpl.
  - split.
    + intros [= <-]. exists []. by rewrite app_nil_r.
    + intros (new & -> & Hall). inversion Hall. by rewrite app_nil_r.
  - split.
    + destruct (findKrakenSymbolInResult tickers (pairToKrakenSymbol pr))
        as [[tickerData foundSymbol] [|]] eqn:Hfind; simpl; [|done].
      destruct (C tickerData) as [|c0 rest] eqn:HC; [done|].
      destruct (String.eqb_spec c0 "") as [|Hc0]; [done|].
      destruct (ParseFloat c0) as [amount|] eqn:Hparse; [|done].
      intros (new & -> & Hall)%IH.
      exists (mkLTP pr amount :: new). rewrite <- app_assoc. split; [done|].
      constructor; [|done]. split; [done|].
      exists tickerData, foundSymbol, c0, rest. by rewrite Hfind.
    + intros (new & -> & Hall).
      inversion Hall as [|? ltp ? new' Hq Hall' E1 E2]; subst.
      destruct Hq as (Hpr & d & found & c0 & rest & Hfind & HC & Hc0 & Hparse).
      rewrite Hfind. simpl. rewrite HC.
      destruct (String.eqb_spec c0 "") as [|_]; [done|].
      rewrite Hparse. apply IH. exists new'.
      rewrite <- app_assoc. simpl. destruct ltp. simpl in *. by subst.
Qed.

(** X6. [GetTickers] succeeds with the quotes [ltps] exactly when the batch
    is not empty, the one call to the network is answered with status 200
    and a body that decodes, the provider reports no error, and for every
    requested pair, in order, the symbol of the pair resolves to a record
    whose first price is not empty and parses to the amount of its quote:
    one failing pair fails the batch. *)
Theorem GetTickers_succeeds_iff (k : KrakenClient) (pairs : list Pair)
    (ltps : list LTP) :
  KrakenClient_GetTickers k pairs = Ok ltps <->
  pairs <> [] /\
  exists tickerResp,
    httpClient k (ticker_url k pairs) = Response StatusOK (Decoded tickerResp) /\
    Error tickerResp = [] /\
    Forall2 (quoted_by (Result tickerResp)) pairs ltps.
Proof.
  split.
  - intros Hok. split.
    { intros ->. done. }
    apply GetTickers_Ok in Hok as (tickerResp & Hnet & HE & Hloop).
    exists tickerResp. split_and!; [done..|].
    apply GetTickers_loop_quoted in Hloop as (new & -> & Hall). done.
  - intros (Hne & [errs tickers] & Hnet & HE & Hall). simpl in HE, Hall.
    subst errs. rewrite (GetTickers_decoded k pairs tickers Hne Hnet).
    apply GetTickers_loop_quoted. by exists ltps.
Qed.

(** X7. The client [NewKrakenClient] builds uses the default address when
    it is given none, and whenever its [GetTickers] succeeds it returns one
    quote for every requested pair, in the order of the request
    (duplicates included), and with the requested pair in each quote. *)
Theorem NewKrakenClient_quotes_in_request_order (net : string -> HttpResult)
    (base : string) (pairs : list Pair) (ltps : list LTP) :
  GetTickers (NewKrakenClient net base) pairs = Ok ltps ->
  map LTP_Pair ltps = pairs /\
  length ltps = length pairs /\
  exists tickerResp,
    net ((if String.eqb base "" then "https://api.kraken.com/0/public"
          else base)
         ++ "/Ticker?pair=" ++ Join (map pairToKrakenSymbol pairs) ",")
      = Response StatusOK (Decoded tickerResp).
Proof.
  unfold NewKrakenClient. simpl.
  intros (tickerResp & Hnet & _ & Hloop)%GetTickers_Ok.
  apply GetTickers_loop_Ok in Hloop as (new & -> & Hall). simpl.
  assert (map LTP_Pair new = pairs) as Hmap.
  { clear Hnet. induction Hall as [|pr ltp prs new [Hp _] _ IH]; simpl; [done|].
    by rewrite Hp, IH. }
  split_and!; [done| |by exists tickerResp].
  rewrite <- Hmap. by rewrite length_map.
Qed.

(** X8. [GetTicker] is [GetTickers] on the one pair: it returns the quote
    exactly when [GetTickers] returns that one quote, it returns an error
    exactly when [GetTickers] returns that error, and its own error, that
    no data was returned for the pair, never occurs. *)
Theorem GetTicker_is_GetTickers_of_one (k : KrakenClient) (pr : Pair) :
  (forall ltp, KrakenClient_GetTicker k pr = Ok ltp <->
               KrakenClient_GetTickers k [pr] = Ok [ltp]) /\
  (forall e, KrakenClient_GetTicker k pr = Err e <->
             KrakenClient_GetTickers k [pr] = Err e) /\
  (forall pair, KrakenClient_GetTicker k pr <> Err (ErrNoDataReturned pair)) /\
  (forall ltp, KrakenClient_GetTicker k pr = Ok ltp -> LTP_Pair ltp = pr).
Proof.
  assert (forall ltps, KrakenClient_GetTickers k [pr] = Ok ltps ->
                       exists ltp, ltps = [ltp] /\ LTP_Pair ltp = pr) as Hone.
  { intros ltps (tickerResp & _ & _ & Hloop)%GetTickers_Ok.
    apply GetTickers_loop_Ok in Hloop as (new & -> & Hall). simpl.
    inversion Hall as [|? ltp ? new' [Hp _] Hall' E1 E2]; subst.
    inversion Hall'. by exists ltp. }
  assert (forall pair, KrakenClient_GetTickers k [pr]
                       <> Err (ErrNoDataReturned pair)) as Hnever.
  { intros pair. unfold KrakenClient_GetTickers. simpl.
    destruct (httpClient k _) as [?|code body]; [done|].
    destruct (negb _); [done|]. destruct body as [?|?|tickerResp]; [done..|].
    destruct (0 <? _)%nat; [done|].
    destruct (findKrakenSymbolInResult _ _) as [[d found] [|]]; simpl; [|done].
    destruct (C d) as [|c0 rest]; [done|]. destruct (String.eqb c0 ""); [done|].
    by destruct (ParseFloat c0). }
  unfold KrakenClient_GetTicker.
  destruct (KrakenClient_GetTickers k [pr]) as [ltps|e] eqn:E.
  - destruct (Hone ltps eq_refl) as (ltp & -> & Hp). split_and!.
    + intros l. split; congruence.
    + intros e. split; congruence.
    + done.
    + by intros l [= <-].
  - split_and!.
    + intros l. split; congruence.
    + intros e'. split; congruence.
    + intros pair [= ->]. by apply (Hnever pair).
    + done.
Qed.
End KrakenMore.

Lemma NewKrakenClient_quotes_in_request_order_witness :
  let net := answering (<["XXBTZUSD" := mkTickerData ["52000"]]>
                          {[ "XBTEUR" := mkTickerData ["50000"] ]}) in
  let pairs := [mkPair BTCEUR; mkPair BTCUSD; mkPair BTCEUR] in
  exists ltps,
    GetTickers (@NewKrakenClient integer_strconv net "") pairs = Ok ltps /\
    map LTP_Pair ltps = pairs.
Proof.
  intros net pairs. eexists. split; [vm_compute; reflexivity|].
  refine (proj1 (@NewKrakenClient_quotes_in_request_order integer_strconv
                   net "" pairs _ _)).
  vm_compute. reflexivity.
Defined.

(** ** package cache *)

(** X9. Store, then look up.  After [SetLTP] of a quote for a pair, a lookup
    of that pair returns the quote, stamped with the clock reading of the
    store, as long as the clock reading of the lookup is at most a minute
    later, and nothing after that; a lookup of a pair with another value
    finds what it would have found without the store. *)
Theorem SetLTP_then_GetLTP (pr q : Pair) (ltp : LTP) (w : World) :
  let stamp := clock w (reads w) in
  let w1 := snd (InMemoryCache_SetLTP pr ltp w) in
  let now := clock w1 (reads w1) in
  (now - stamp <= Minute ->
     fst (InMemoryCache_GetLTP pr w1) = (Some (mkCachedLTP ltp stamp), true)) /\
  (Minute < now - stamp ->
     fst (InMemoryCache_GetLTP pr w1) = (None, false)) /\
  (Value q <> Value pr ->
     fst (InMemoryCache_GetLTP q w1) =
     fst (InMemoryCache_GetLTP q
            (mkWorld (store w) (clock w) (reads w1) (calls w)))) /\
  reads w1 = S (reads w) /\ calls w1 = calls w.
Proof.
  intros stamp w1 now. subst w1. rewrite InMemoryCache_SetLTP_run in *.
  simpl in *. rewrite !InMemoryCache_GetLTP_run. simpl.
  rewrite lookup_insert_eq. simpl. fold stamp. fold now.
  split_and!; [| | |done|done].
  - intros Hfresh. destruct (Z.ltb_spec Minute (now - stamp)); [lia|done].
  - intros Hexp. destruct (Z.ltb_spec Minute (now - stamp)); [done|lia].
  - intros Hne. rewrite lookup_insert_ne by done.
    destruct (store w !! Value q) as [c|]; [|done]. simpl. by case_match.
Qed.

Section ClearFacts.
Context `{strings_pkg}.

Lemma ParsePairs_Ok_nonempty (pairsStr : string) (pairs : list Pair) :
  ParsePairs pairsStr = Ok pairs -> pairs <> [].
Proof.
  unfold ParsePairs. destruct (String.eqb pairsStr ""); [by intros [= <-]|].
  destruct (ParsePairs_loop _ _ _) as [result|]; [|done].
  destruct result; simpl; [done|]. by intros [= <-].
Qed.

Lemma fetch_calls_of_run (ext : External)
    (looked : list (Pair * option CachedLTP)) :
  List.filter is_CallGetTickers (GetLTPs_calls ext looked) =
    match misses looked with
    | [] => []
    | ms => [CallGetTickers ms]
    end.
Proof.
  unfold GetLTPs_calls. rewrite List.filter_app, lookups_no_fetch. simpl.
  destruct (misses looked) as [|m ms]; [done|]. simpl.
  destruct (GetTickers ext (m :: ms)); [|done]. by rewrite stores_no_fetch.
Qed.

Lemma probe_empty (clk : nat -> Time) (n : nat) (pairs : list Pair) :
  misses (probe ∅ clk n pairs) = pairs.
Proof.
  revert n. induction pairs as [|pr pairs IH]; intros n; [done|].
  simpl. unfold misses. simpl. unfold fresh_entry at 1.
  rewrite !lookup_empty. simpl. f_equal. apply IH.
Qed.

(** X10. [Clear] empties the cache and touches nothing else: after it no
    lookup finds anything (and none reads the clock), and the next
    [GetLTPs] on a specification that parses fetches all its pairs, in one
    call to the upstream. *)
Theorem Clear_then_everything_is_fetched (ext : External) (w : World) :
  let w1 := snd (InMemoryCache_Clear w) in
  store w1 = ∅ /\ clock w1 = clock w /\ reads w1 = reads w /\
  calls w1 = calls w /\
  (forall pr, InMemoryCache_GetLTP pr w1 = ((None, false), w1)) /\
  (forall pairsStr pairs,
     ParsePairs pairsStr = Ok pairs ->
     List.filter is_CallGetTickers
       (new_calls w1
          (snd (LTPService_GetLTPs (NewLTPService NewInMemoryCache ext)
                  pairsStr w1)))
     = [CallGetTickers pairs]).
Proof.
  intros w1. subst w1. unfold InMemoryCache_Clear, set_store. simpl.
  split_and!; [done..| |].
  - intros pr. rewrite InMemoryCache_GetLTP_run. simpl.
    by rewrite lookup_empty.
  - intros pairsStr pairs Hparse.
    destruct (GetLTPs_run ext pairsStr pairs
                (mkWorld ∅ (clock w) (reads w) (calls w)) Hparse)
      as (w' & -> & _ & Hcalls & _). simpl in *.
    rewrite (drop_new_calls (mkWorld ∅ (clock w) (reads w) (calls w)) w' _
               Hcalls), fetch_calls_of_run, probe_empty.
    pose proof (ParsePairs_Ok_nonempty _ _ Hparse). by destruct pairs.
Qed.
End ClearFacts.

(** ** package service *)
Section ServiceMore.
Context `{strings_pkg}.
Variable ext : External.
Local Abbreviation svc := (NewLTPService NewInMemoryCache ext).

Lemma check_cache_run_reads (pairs : list Pair) (result : list LTP)
    (pairsToFetch : list Pair) (w : World) :
  let looked := probe (store w) (clock w) (reads w) pairs in
  check_cache svc pairs result pairsToFetch w =
    ((result ++ hits looked, pairsToFetch ++ misses looked)%list,
     mkWorld (store w) (clock w) (reads w + present (store w) pairs)
       (calls w ++ lookups looked)).
Proof.
  revert result pairsToFetch w.
  induction pairs as [|pr pairs IH]; intros result pairsToFetch w; simpl.
  - unfold ret, present. simpl. rewrite !app_nil_r, Nat.add_0_r. by destruct w.
  - unfold bind at 1. unfold repository_GetLTP at 1. unfold bind, record, ret.
    simpl. rewrite InMemoryCache_GetLTP_run. unfold fresh_entry, present.
    simpl.
    destruct (store w !! Value pr) as [c|] eqn:E; simpl.
    + destruct (Minute <? clock w (reads w) - Timestamp c); simpl;
        rewrite IH; simpl; unfold hits, misses, lookups, present; simpl;
        rewrite <- !app_assoc; simpl; do 3 f_equal; lia.
    + rewrite IH. simpl. unfold hits, misses, lookups, present. simpl.
      by rewrite <- !app_assoc.
Qed.

(** One run of [GetLTPs] on a specification that parses, with the cache
    it leaves. *)
Lemma GetLTPs_run_store (pairsStr : string) (pairs : list Pair) (w : World) :
  ParsePairs pairsStr = Ok pairs ->
  let looked := probe (store w) (clock w) (reads w) pairs in
  exists n, (reads w <= n)%nat /\
    LTPService_GetLTPs svc pairsStr w =
      (GetLTPs_result ext looked,
       mkWorld (GetLTPs_store ext w pairs) (clock w) n
         (calls w ++ GetLTPs_calls ext looked)).
Proof.
  intros Hparse looked. unfold LTPService_GetLTPs. rewrite Hparse.
  unfold bind at 1. rewrite check_cache_run_reads. fold looked. simpl.
  unfold GetLTPs_result, GetLTPs_calls, GetLTPs_store. fold looked.
  destruct (misses looked) as [|m ms] eqn:Hm; simpl.
  - unfold ret. eexists. split; [|by rewrite app_nil_r]. lia.
  - unfold bind at 1. unfold external_GetTickers, bind, record, ret. simpl.
    destruct (GetTickers ext (m :: ms)) as [ltps|e]; simpl.
    + rewrite cache_fetched_run. simpl. eexists.
      split; [|by rewrite <- !app_assoc]. lia.
    + eexists. split; [|by rewrite <- !app_assoc]. lia.
Qed.

Lemma store_all_lookup_other (st : gmap string CachedLTP) (clk : nat -> Time)
    (n : nat) (ltps : list LTP) (k : string) :
  (forall ltp, In ltp ltps -> key ltp <> k) ->
  store_all st clk n ltps !! k = st !! k.
Proof.
  revert st n. induction ltps as [|ltp ltps IH]; intros st n Hk; simpl; [done|].
  rewrite IH by (intros l Hl; apply Hk; by right).
  apply lookup_insert_ne, Hk. by left.
Qed.

Lemma store_all_is_Some (st : gmap string CachedLTP) (clk : nat -> Time)
    (n : nat) (ltps : list LTP) (k : string) :
  is_Some (st !! k) -> is_Some (store_all st clk n ltps !! k).
Proof.
  revert st n. induction ltps as [|ltp ltps IH]; intros st n Hk; simpl; [done|].
  apply IH. destruct (decide (key ltp = k)) as [->|Hne].
  - rewrite lookup_insert_eq. eauto.
  - by rewrite lookup_insert_ne.
Qed.

Lemma In_stores (ltps : list LTP) (pr : Pair) (ltp : LTP) :
  In (CallSetLTP pr ltp) (stores ltps) <-> In ltp ltps /\ pr = LTP_Pair ltp.
Proof.
  unfold stores. rewrite in_map_iff. split.
  - intros (l & [= <- <-] & Hl). done.
  - intros [Hl ->]. by exists ltp.
Qed.

Lemma In_GetLTPs_calls_store (looked : list (Pair * option CachedLTP))
    (pr : Pair) (ltp : LTP) :
  In (CallSetLTP pr ltp) (GetLTPs_calls ext looked) <->
  exists m ms ltps, misses looked = m :: ms /\
    GetTickers ext (m :: ms) = Ok ltps /\ In ltp ltps /\ pr = LTP_Pair ltp.
Proof.
  unfold GetLTPs_calls. rewrite in_app_iff. split.
  - intros [Hin|Hin].
    + unfold lookups in Hin. apply in_map_iff in Hin as (po & Heq & _). done.
    + destruct (misses looked) as [|m ms]; [done|].
      destruct Hin as [Heq|Hin]; [done|].
      destruct (GetTickers ext (m :: ms)) as [ltps|] eqn:Hget; [|done].
      apply In_stores in Hin as [Hl ->]. by exists m, ms, ltps.
  - intros (m & ms & ltps & -> & -> & Hl & ->). right. right.
    by apply In_stores.
Qed.

(** X11. Whatever the upstream returns and whether the call succeeds or
    not, [GetLTPs] keeps the cache well-keyed: if every entry is stored
    under the value of its own pair before the call, so it is after. *)
Theorem GetLTPs_keeps_cache_well_keyed (pairsStr : string) (w : World) :
  cache_wf (store w) ->
  cache_wf (store (snd (LTPService_GetLTPs svc pairsStr w))).
Proof.
  intros Hwf. destruct (ParsePairs pairsStr) as [pairs|e] eqn:Hparse.
  - destruct (GetLTPs_run ext pairsStr pairs w Hparse)
      as (w' & -> & _ & _ & Hwf' & _). by apply Hwf'.
  - by rewrite (GetLTPs_parse_error ext pairsStr e w Hparse).
Qed.

(** X12. [GetLTPs] only writes to the cache, and only what it fetched: the
    recorded [SetLTP] calls are, each under its own pair, quotes the
    upstream returned; an entry whose key is not the pair value of a quote
    stored in the call is left as it was, and no entry is removed. *)
Theorem GetLTPs_only_writes_fetched_quotes (pairsStr : string) (w w' : World)
    (r : Res (list LTP)) :
  LTPService_GetLTPs svc pairsStr w = (r, w') ->
  (forall pr ltp, In (CallSetLTP pr ltp) (new_calls w w') ->
     pr = LTP_Pair ltp /\
     exists ps ltps, In (CallGetTickers ps) (new_calls w w') /\
                     GetTickers ext ps = Ok ltps /\ In ltp ltps) /\
  (forall k,
     (forall pr ltp, In (CallSetLTP pr ltp) (new_calls w w') -> Value pr <> k) ->
     store w' !! k = store w !! k) /\
  (forall k, is_Some (store w !! k) -> is_Some (store w' !! k)).
Proof.
  intros Hrun. destruct (ParsePairs pairsStr) as [pairs|e] eqn:Hparse.
  - destruct (GetLTPs_run_store pairsStr pairs w Hparse) as (n & _ & Hrun').
    rewrite Hrun' in Hrun. injection Hrun as <- <-.
    set (looked := probe (store w) (clock w) (reads w) pairs).
    assert (new_calls w
              (mkWorld (GetLTPs_store ext w pairs) (clock w) n
                 (calls w ++ GetLTPs_calls ext looked))
            = GetLTPs_calls ext looked) as -> by (by apply drop_new_calls).
    simpl. split_and!.
    + intros pr ltp (m & ms & ltps & Hm & Hget & Hl & ->)%In_GetLTPs_calls_store.
      split; [done|]. exists (m :: ms), ltps. split_and!; [|done..].
      unfold GetLTPs_calls. apply in_or_app. right. rewrite Hm. by left.
    + intros k Hk. unfold GetLTPs_store. fold looked.
      destruct (misses looked) as [|m ms] eqn:Hm; [done|].
      destruct (GetTickers ext (m :: ms)) as [ltps|] eqn:Hget; [|done].
      apply store_all_lookup_other. intros ltp Hl.
      apply (Hk (LTP_Pair ltp) ltp). apply In_GetLTPs_calls_store.
      by exists m, ms, ltps.
    + intros k Hk. unfold GetLTPs_store.
      destruct (misses _) as [|m ms]; [done|].
      destruct (GetTickers ext (m :: ms)); [|done].
      by apply store_all_is_Some.
  - rewrite (GetLTPs_parse_error ext pairsStr e w Hparse) in Hrun.
    injection Hrun as <- <-.
    assert (new_calls w w = []) as ->
      by (apply drop_new_calls; by rewrite app_nil_r).
    split_and!; done.
Qed.

Lemma StronglySorted_weaken {A} (R1 R2 : A -> A -> Prop) (l : list A) :
  (forall a b, R1 a b -> R2 a b) -> StronglySorted R1 l -> StronglySorted R2 l.
Proof.
  intros HR. induction 1 as [|x l Hl IH Hx]; constructor; [done|].
  eapply Forall_impl; [exact Hx|]. auto.
Qed.

(** X13. Whatever the upstream returns, the quotes of a successful
    [GetLTPs] are the quotes found fresh in the cache together with all the
    quotes the upstream returned (requested or not), arranged in
    non-decreasing order of the pair's value. *)
Theorem GetLTPs_result_is_sorted_hits_and_fetched (pairsStr : string)
    (pairs : list Pair) (w w' : World) (ltps : list LTP) :
  ParsePairs pairsStr = Ok pairs ->
  LTPService_GetLTPs svc pairsStr w = (Ok ltps, w') ->
  let looked := probe (store w) (clock w) (reads w) pairs in
  sorted_by_pair ltps /\
  exists fetched,
    Permutation ltps (hits looked ++ fetched) /\
    match misses looked with
    | [] => fetched = []
    | ms => GetTickers ext ms = Ok fetched
    end.
Proof.
  intros Hparse Hrun looked.
  destruct (GetLTPs_run ext pairsStr pairs w Hparse) as (w1 & Hrun1 & _).
  fold looked in Hrun1. rewrite Hrun1 in Hrun. injection Hrun as Hres _.
  assert (forall l, sorted_by_pair (sort_Slice less l)) as Hsorted.
  { intros l. unfold sorted_by_pair.
    eapply StronglySorted_weaken;
      [|apply (sort_Slice_sorted less (fun a b => ltb_asym _ _)
                 (fun a b c => ltb_negtrans _ _ _))].
    intros a b Hab. by apply ltb_false_le. }
  unfold GetLTPs_result in Hres.
  destruct (misses looked) as [|m ms].
  - injection Hres as <-. split; [apply Hsorted|].
    exists []. split; [|done]. rewrite app_nil_r. apply sort_Slice_Permutation.
  - destruct (GetTickers ext (m :: ms)) as [fetched|]; [|done].
    injection Hres as <-. split; [apply Hsorted|].
    exists fetched. split; [|done]. apply sort_Slice_Permutation.
Qed.
End ServiceMore.

Lemma cache_wf_world1 (ts now : Time) : cache_wf (store (world1 ts now)).
Proof.
  intros k c Hk. unfold world1 in Hk. simpl in Hk.
  by apply lookup_singleton_Some in Hk as [<- <-].
Qed.

Lemma GetLTPs_keeps_cache_well_keyed_witness :
  cache_wf (store (snd (@LTPService_GetLTPs ascii_strings
                          (NewLTPService NewInMemoryCache
                             (quoting (S754_zero false)))
                          "btc/usd,btc/eur" (world1 0 Second)))).
Proof.
  apply (@GetLTPs_keeps_cache_well_keyed ascii_strings).
  apply cache_wf_world1.
Defined.

Lemma GetLTPs_only_writes_fetched_quotes_witness :
  let ext := quoting (S754_zero false) in
  let w := world1 0 Second in
  let run := @LTPService_GetLTPs ascii_strings
               (NewLTPService NewInMemoryCache ext) "btc/usd,btc/eur" w in
  (forall pr ltp, In (CallSetLTP pr ltp) (new_calls w (snd run)) ->
     pr = LTP_Pair ltp /\
     exists ps ltps, In (CallGetTickers ps) (new_calls w (snd run)) /\
                     GetTickers ext ps = Ok ltps /\ In ltp ltps) /\
  (forall k,
     (forall pr ltp, In (CallSetLTP pr ltp) (new_calls w (snd run)) ->
                     Value pr <> k) ->
     store (snd run) !! k = store w !! k) /\
  (forall k, is_Some (store w !! k) -> is_Some (store (snd run) !! k)).
Proof.
  intros ext w run.
  apply (@GetLTPs_only_writes_fetched_quotes ascii_strings ext
           "btc/usd,btc/eur" w (snd run) (fst run)).
  vm_compute. reflexivity.
Defined.

Lemma GetLTPs_result_is_sorted_hits_and_fetched_witness :
  let ext := quoting (S754_zero false) in
  let w := world1 0 Second in
  let pairs := [mkPair BTCUSD; mkPair BTCEUR] in
  let looked := probe (store w) (clock w) (reads w) pairs in
  let ltps := [mkLTP (mkPair BTCEUR) (S754_zero false);
               mkLTP (mkPair BTCUSD) (S754_zero false)] in
  sorted_by_pair ltps /\
  exists fetched,
    Permutation ltps (hits looked ++ fetched) /\
    match misses looked with
    | [] => fetched = []
    | ms => GetTickers ext ms = Ok fetched
    end.
Proof.
  intros ext w pairs looked ltps.
  set (run := @LTPService_GetLTPs ascii_strings
                (NewLTPService NewInMemoryCache ext) "btc/usd,btc/eur" w).
  apply (@GetLTPs_result_is_sorted_hits_and_fetched ascii_strings ext
           "btc/usd,btc/eur" pairs w (snd run) ltps).
  - vm_compute. reflexivity.
  - vm_compute. reflexivity.
Defined.

Section ParseInvariants.
Context `{strings_pkg}.

Lemma ParsePairs_Ok_valid (pairsStr : string) (pairs : list Pair) :
  ParsePairs pairsStr = Ok pairs ->
  Forall (fun t => IsValidPair t = true) (tokens pairsStr).
Proof.
  intros Hok.
  destruct (first_invalid (tokens pairsStr))
    as [Hall|(pre & t & post & Htok & _ & Ht)]; [done|].
  destruct (ParsePairs_invalid pairsStr) as (t' & _ & _ & Herr); [|congruence].
  rewrite Htok. apply Exists_app. right. by left.
Qed.

(** X14. Every list of pairs [ParsePairs] returns is not empty, holds no
    value twice, holds only values of the catalog, and so has at most
    three pairs. *)
Theorem ParsePairs_returns_distinct_catalog_pairs (pairsStr : string)
    (pairs : list Pair) :
  ParsePairs pairsStr = Ok pairs ->
  pairs <> [] /\
  NoDup (map Value pairs) /\
  Forall (fun pr => In (Value pr) catalog) pairs /\
  (length pairs <= 3)%nat.
Proof.
  intros Hok. pose proof (ParsePairs_Ok_valid _ _ Hok) as Hval.
  destruct (ParsePairs_valid pairsStr Hval) as (pairs' & Hok' & Hnd & Hempty & Hin).
  assert (pairs' = pairs) as -> by congruence.
  assert (Forall (fun pr => In (Value pr) catalog) pairs) as Hcat.
  { destruct (String.eqb_spec pairsStr "") as [Heq|Hne].
    - rewrite (Hempty Heq). apply Forall_forall. intros pr Hpr.
      apply list_elem_of_In in Hpr.
      destruct Hpr as [<-|[<-|[<-|[]]]]; simpl; tauto.
    - apply Forall_forall. intros pr Hpr.
      destruct (proj1 (Hin Hne (Value pr))) as (t & Ht & Hv).
      { apply list_elem_of_fmap. by exists pr. }
      rewrite Forall_forall in Hval. apply Hval in Ht.
      apply validPairs_catalog. by rewrite Hv. }
  split_and!; [by eapply ParsePairs_Ok_nonempty|done|done|].
  assert (map Value pairs ⊆+ catalog) as Hsub.
  { apply NoDup_submseteq; [done|]. intros v (pr & -> & Hpr)%list_elem_of_fmap.
    rewrite Forall_forall in Hcat. by apply list_elem_of_In, Hcat. }
  apply submseteq_length in Hsub. by rewrite length_map in Hsub.
Qed.

Lemma ParsePairs_returns_distinct_catalog_pairs_aux (pairsStr : string)
    (pairs : list Pair) :
  ParsePairs pairsStr = Ok pairs -> pairs <> [] /\ NoDup (map Value pairs).
Proof.
  intros Hok. split; [by eapply ParsePairs_Ok_nonempty|].
  pose proof (ParsePairs_Ok_valid _ _ Hok) as Hval.
  destruct (ParsePairs_valid pairsStr Hval) as (pairs' & Hok' & Hnd & _).
  congruence.
Qed.
End ParseInvariants.

Lemma ParsePairs_returns_distinct_catalog_pairs_witness :
  let pairs := [mkPair BTCCHF; mkPair BTCUSD] in
  pairs <> [] /\
  NoDup (map Value pairs) /\
  Forall (fun pr => In (Value pr) catalog) pairs /\
  (length pairs <= 3)%nat.
Proof.
  apply (@ParsePairs_returns_distinct_catalog_pairs ascii_strings
           "btc/chf,btc/usd,BTC/CHF").
  reflexivity.
Defined.

Section SecondCall.
Context `{strings_pkg}.
Variable ext : External.
Local Abbreviation svc2 := (NewLTPService NewInMemoryCache ext).

Lemma probe_absent (st : gmap string CachedLTP) (clk : nat -> Time) (n : nat)
    (pairs : list Pair) :
  (forall pr, In pr pairs -> st !! Value pr = None) ->
  hits (probe st clk n pairs) = [] /\
  misses (probe st clk n pairs) = pairs /\
  present st pairs = 0%nat.
Proof.
  revert n. induction pairs as [|pr pairs IH]; intros n Habs; [done|].
  simpl. unfold hits, misses, present. simpl. unfold fresh_entry at 1 2.
  rewrite (Habs pr) by (by left). simpl.
  destruct (IH n) as (Hh & Hm & Hp); [intros; apply Habs; by right|].
  unfold hits, misses, present in Hh, Hm, Hp. by rewrite Hh, Hm, Hp.
Qed.

Lemma probe_all_fresh (st : gmap string CachedLTP) (clk : nat -> Time)
    (n : nat) (pairs : list Pair) :
  (forall pr, In pr pairs -> exists c, st !! Value pr = Some c /\
     forall m, (n <= m)%nat -> clk m - Timestamp c <= Minute) ->
  misses (probe st clk n pairs) = [].
Proof.
  revert n. induction pairs as [|pr pairs IH]; intros n Hall; [done|].
  simpl. unfold misses. simpl.
  destruct (Hall pr) as (c & Hc & Hfresh); [by left|].
  assert (fresh_entry st (clk n) pr = Some c) as ->.
  { apply fresh_entry_Some. split; [done|]. by apply Hfresh. }
  rewrite Hc. simpl. apply IH. intros pr' Hpr'.
  destruct (Hall pr') as (c' & Hc' & Hfresh'); [by right|].
  exists c'. split; [done|]. intros m Hm. apply Hfresh'. lia.
Qed.

Lemma store_all_lookup_in (st : gmap string CachedLTP) (clk : nat -> Time)
    (n : nat) (ltps : list LTP) (ltp : LTP) :
  NoDup (map key ltps) -> In ltp ltps ->
  exists i, store_all st clk n ltps !! key ltp
            = Some (mkCachedLTP ltp (clk (n + i)%nat)).
Proof.
  revert st n. induction ltps as [|l0 ltps IH]; intros st n Hnd Hin; [done|].
  simpl in Hnd. apply NoDup_cons in Hnd as [Hnot Hnd]. simpl.
  destruct (decide (key ltp ∈ map key ltps)) as [Hk|Hk].
  - destruct Hin as [->|Hin]; [done|].
    destruct (IH (<[key l0 := mkCachedLTP l0 (clk n)]> st) (S n) Hnd Hin)
      as [i Hi].
    exists (S i). rewrite Hi. do 3 f_equal. lia.
  - destruct Hin as [->|Hin].
    + exists 0%nat. rewrite store_all_lookup_other.
      * rewrite lookup_insert_eq. by rewrite Nat.add_0_r.
      * intros l Hl Heq. apply Hk. rewrite <- Heq.
        apply list_elem_of_fmap. exists l. split; [done|].
        by apply list_elem_of_In.
    + exfalso. apply Hk. apply list_elem_of_fmap. exists ltp.
      split; [done|]. by apply list_elem_of_In.
Qed.

Lemma ascending_Permutation_eq (l1 l2 : list LTP) :
  ascending l1 -> ascending l2 -> Permutation l1 l2 -> l1 = l2.
Proof.
  apply StronglySorted_unique_strong.
  intros x1 x2 _ _ H12 H21. apply ltb_asym in H12. congruence.
Qed.

Lemma hits_of_stored (st : gmap string CachedLTP) (ltps : list LTP)
    (ps : list Pair) (hs : list LTP) :
  Forall2 (fun pr ltp => exists c, st !! Value pr = Some c /\
                                   ltp = Cached_LTP c) ps hs ->
  (forall pr, In pr ps -> exists ltp t, In ltp ltps /\ LTP_Pair ltp = pr /\
                            st !! Value pr = Some (mkCachedLTP ltp t)) ->
  map LTP_Pair hs = ps /\ Forall (fun l => In l ltps) hs.
Proof.
  induction 1 as [|pr l prs ls (c & Hc & ->) _ IH]; intros Hst; [done|].
  destruct (Hst pr) as (ltp & t & Hl & Hp' & Hlook); [by left|].
  rewrite Hlook in Hc. injection Hc as <-. simpl.
  destruct IH as [IH1 IH2]; [intros; apply Hst; by right|].
  split; [by rewrite Hp', IH1|by constructor].
Qed.

(** X15. A call that finds none of its pairs in the cache and gets one
    quote per pair from the upstream stores them all: when all clock
    readings from the call on lie within one minute of each other, the
    same request again returns the same quotes, calls the upstream not at
    all, and leaves the cache as the first call left it. *)
Theorem GetLTPs_again_is_served_from_cache (pairsStr : string)
    (pairs : list Pair) (ltps : list LTP) (w : World) :
  ParsePairs pairsStr = Ok pairs ->
  (forall pr, In pr pairs -> store w !! Value pr = None) ->
  GetTickers ext pairs = Ok ltps ->
  Permutation (map LTP_Pair ltps) pairs ->
  (forall n m, (reads w <= n)%nat -> (reads w <= m)%nat ->
               clock w m - clock w n <= Minute) ->
  let run1 := LTPService_GetLTPs svc2 pairsStr w in
  let run2 := LTPService_GetLTPs svc2 pairsStr (snd run1) in
  fst run1 = Ok (sort_Slice less ltps) /\
  fst run2 = fst run1 /\
  List.filter is_CallGetTickers (new_calls (snd run1) (snd run2)) = [] /\
  store (snd run2) = store (snd run1).
Proof.
  intros Hparse Habs Hget Hperm Hclock run1 run2.
  pose proof (ParsePairs_returns_distinct_catalog_pairs_aux pairsStr pairs Hparse)
    as (Hne & Hnd).
  (* the first call *)
  destruct (GetLTPs_run_store ext pairsStr pairs w Hparse) as (n1 & Hn1 & Hrun1).
  destruct (probe_absent (store w) (clock w) (reads w) pairs Habs)
    as (Hh & Hm & Hp).
  unfold GetLTPs_result, GetLTPs_store in Hrun1. rewrite Hh, Hm, Hp in Hrun1.
  destruct pairs as [|p0 pairs0] eqn:Epairs; [done|]. rewrite <- Epairs in *.
  rewrite Epairs in Hrun1 at 1 3. rewrite <- Epairs in Hrun1.
  rewrite Hget in Hrun1. simpl in Hrun1. rewrite Nat.add_0_r in Hrun1.
  set (st1 := store_all (store w) (clock w) (reads w) ltps) in *.
  subst run1 run2. rewrite Hrun1. simpl.
  (* the second call *)
  set (w1 := mkWorld st1 (clock w) n1 _) in *.
  destruct (GetLTPs_run_store ext pairsStr pairs w1 Hparse) as (n2 & _ & Hrun2).
  rewrite Hrun2. simpl.
  set (looked := probe st1 (clock w) n1 pairs) in *.
  assert (NoDup (map key ltps)) as Hndk.
  { unfold key. rewrite <- (List.map_map LTP_Pair Value), Hperm. done. }
  assert (forall pr, In pr pairs -> exists ltp i,
            In ltp ltps /\ LTP_Pair ltp = pr /\
            st1 !! Value pr = Some (mkCachedLTP ltp (clock w (reads w + i)%nat)))
    as Hstored.
  { intros pr Hpr.
    assert (pr ∈ map LTP_Pair ltps) as (ltp & -> & Hl)%list_elem_of_fmap
      by (rewrite Hperm; by apply list_elem_of_In).
    apply list_elem_of_In in Hl.
    destruct (store_all_lookup_in (store w) (clock w) (reads w) ltps ltp Hndk Hl)
      as [i Hi].
    by exists ltp, i. }
  assert (misses looked = []) as Hmiss.
  { apply probe_all_fresh. intros pr Hpr.
    destruct (Hstored pr Hpr) as (ltp & i & _ & _ & Hst).
    eexists. split; [exact Hst|]. intros m Hm'. simpl. apply Hclock; lia. }
  assert (Permutation (hits looked) ltps) as Hhits.
  { pose proof (probe_all_hits st1 (clock w) n1 pairs Hmiss) as Hall.
    fold looked in Hall.
    assert (map LTP_Pair (hits looked) = pairs /\
            Forall (fun l => In l ltps) (hits looked)) as [Hmap Hin].
    { apply (hits_of_stored st1 ltps pairs (hits looked) Hall).
      intros pr Hpr. destruct (Hstored pr Hpr) as (ltp & i & ? & ? & ?).
      by exists ltp, (clock w (reads w + i)%nat). }
    apply submseteq_length_Permutation.
    - apply NoDup_submseteq.
      + apply (NoDup_fmap_1 LTP_Pair).
        change (NoDup (map LTP_Pair (hits looked))). rewrite Hmap.
        by apply (NoDup_fmap_1 Value).
      + intros l Hl. rewrite Forall_forall in Hin.
        by apply list_elem_of_In, Hin.
    - rewrite <- (length_map LTP_Pair (hits looked)), Hmap.
      by rewrite <- (Permutation_length Hperm), length_map. }
  unfold GetLTPs_result, GetLTPs_store.
  change (probe (store w1) (clock w1) (reads w1) pairs) with looked.
  rewrite Hmiss.
  split_and!; [done| | |done].
  - f_equal. apply ascending_Permutation_eq.
    + apply sort_Slice_ascending. by rewrite Hhits.
    + by apply sort_Slice_ascending.
    + by rewrite !sort_Slice_Permutation.
  - rewrite (drop_new_calls w1 _ (GetLTPs_calls ext looked)) by done.
    by rewrite fetch_calls_of_run, Hmiss.
Qed.
End SecondCall.

Lemma GetLTPs_again_is_served_from_cache_witness :
  let ext := quoting (S754_zero false) in
  let svc := NewLTPService NewInMemoryCache ext in
  let ltps := [mkLTP (mkPair BTCUSD) (S754_zero false);
               mkLTP (mkPair BTCEUR) (S754_zero false)] in
  let run1 := @LTPService_GetLTPs ascii_strings svc "btc/usd,btc/eur"
                (world0 0) in
  let run2 := @LTPService_GetLTPs ascii_strings svc "btc/usd,btc/eur"
                (snd run1) in
  fst run1 = Ok (sort_Slice less ltps) /\
  fst run2 = fst run1 /\
  List.filter is_CallGetTickers (new_calls (snd run1) (snd run2)) = [] /\
  store (snd run2) = store (snd run1).
Proof.
  intros ext svc ltps.
  apply (@GetLTPs_again_is_served_from_cache ascii_strings ext
           "btc/usd,btc/eur" [mkPair BTCUSD; mkPair BTCEUR] ltps (world0 0)).
  - vm_compute. reflexivity.
  - intros pr _. apply lookup_empty.
  - reflexivity.
  - reflexivity.
  - intros n m _ _. vm_compute. discriminate.
Defined.

(** ** The server, end to end *)
Section EndToEnd.
Context `{strings_pkg} `{strconv_pkg}.



Lemma ParsePairs_Ok_catalog (pairsStr : string) (pairs : list Pair) :
  ParsePairs pairsStr = Ok pairs ->
  forall pr, In pr pairs -> In (Value pr) catalog.
Proof.
  intros Hok pr Hpr. pose proof (ParsePairs_Ok_valid _ _ Hok) as Hval.
  destruct (ParsePairs_valid pairsStr Hval) as (pairs' & Hok' & _ & Hempty & Hin).
  assert (pairs' = pairs) as -> by congruence.
  destruct (String.eqb_spec pairsStr "") as [Heq|Hne].
  - rewrite (Hempty Heq) in Hpr.
    destruct Hpr as [<-|[<-|[<-|[]]]]; simpl; tauto.
  - destruct (proj1 (Hin Hne (Value pr))) as (t & Ht & Hv).
    { apply list_elem_of_fmap. exists pr. split; [done|].
      by apply list_elem_of_In. }
    rewrite Forall_forall in Hval. apply Hval in Ht.
    apply validPairs_catalog. by rewrite Hv.
Qed.



End EndToEnd.




(** A quote whose amount is infinite, here one that sits in the cache,
    cannot be encoded: the request is answered with status 500. *)
Example server_infinite_amount_is_internal_error :
  let h := @server ascii_strings integer_strconv (answering sample_tickers) in
  let w := mkWorld {[ BTCUSD := mkCachedLTP
                                  (mkLTP (mkPair BTCUSD) (S754_infinity false))
                                  0 ]}
                   (fun _ => 0) 0 [] in
  fst (Handler_GetLTP h "btc/usd" w)
    = mkReply 500 (Message "Internal Server Error").
Proof. vm_compute. reflexivity. Qed.

(** ** The second KrakenClient *)

Lemma string_app_assoc (a b c : string) : (a ++ b) ++ c = a ++ (b ++ c).
Proof.
  induction a as [|x a IH]; [done|].
  change (String x ((a ++ b) ++ c) = String x (a ++ (b ++ c))).
  by rewrite IH.
Qed.

Lemma string_app_empty (a : string) : a ++ "" = a.
Proof.
  induction a as [|x a IH]; [done|].
  change (String x (a ++ "") = String x a). by rewrite IH.
Qed.

Lemma fold_join (sep : string) (rest : list string) (acc : string) :
  fold_left (fun result s1 => result ++ sep ++ s1) rest acc
    = acc ++ match rest with
             | [] => ""
             | _ => sep ++ Join rest sep
             end.
Proof.
  revert acc. induction rest as [|s1 rest IH]; intros acc; simpl.
  - by rewrite string_app_empty.
  - rewrite IH. destruct rest as [|s2 rest].
    + by rewrite string_app_empty.
    + by rewrite !string_app_assoc.
Qed.

(** X17. The hand-written [joinStrings] of the second client computes what
    [strings.Join] computes, for every list and separator; hence the URL
    its [GetTickers] builds, in one branch for a single symbol and in
    another for several, is the URL the current [GetTickers] builds. *)
Theorem joinStrings_is_Join (strs : list string) (sep : string) :
  client2.joinStrings strs sep = Join strs sep /\
  forall k pairs, pairs <> [] -> client2.ticker_url k pairs = ticker_url k pairs.
Proof.
  assert (forall l, client2.joinStrings l sep = Join l sep) as Hjoin.
  { intros [|s0 [|s1 rest]]; [done..|].
    unfold client2.joinStrings. by rewrite fold_join. }
  split; [apply Hjoin|].
  intros k [|p0 [|p1 pairs]] Hne; [done|done|].
  unfold client2.ticker_url, ticker_url.
  change (1 <? length (map pairToKrakenSymbol (p0 :: p1 :: pairs)))%nat
    with true.
  cbv beta iota. clear Hjoin. f_equal. f_equal.
  unfold client2.joinStrings. cbn [map]. by rewrite fold_join.
Qed.

Lemma find_variant_repeat (result : gmap string KrakenTickerData)
    (a b : string) :
  find_variant result [a; b; b] = find_variant result [a; b].
Proof. simpl. destruct (result !! a); [done|]. by destruct (result !! b). Qed.

(** X18. On every symbol that starts with "XBT", so on the symbol of every
    catalog pair, the [findKrakenSymbolInResult] of the second client (with
    its third variant "X"+symbol) returns what the current one returns: the
    third variant is the second one written differently. *)
Theorem second_client_finds_the_same (result : gmap string KrakenTickerData) :
  (forall suffix,
     client2.findKrakenSymbolInResult result ("XBT" ++ suffix)
       = findKrakenSymbolInResult result ("XBT" ++ suffix)) /\
  (forall pr, In (Value pr) catalog ->
     client2.findKrakenSymbolInResult result (pairToKrakenSymbol pr)
       = findKrakenSymbolInResult result (pairToKrakenSymbol pr)).
Proof.
  assert (forall suffix,
            client2.findKrakenSymbolInResult result ("XBT" ++ suffix)
              = findKrakenSymbolInResult result ("XBT" ++ suffix)) as Hxbt.
  { intros suffix.
    unfold client2.findKrakenSymbolInResult, findKrakenSymbolInResult.
    rewrite variants_of_XBT.
    assert (client2.variants_of ("XBT" ++ suffix)
            = ["XXBTZ" ++ suffix; "XXBT" ++ suffix; "XXBT" ++ suffix]) as ->.
    { pose proof (variants_of_XBT suffix) as Hv.
      unfold variants_of in Hv. unfold client2.variants_of.
      destruct ((3 <=? String.length ("XBT" ++ suffix))%nat
                && String.eqb (prefix3 ("XBT" ++ suffix)) "XBT"); [|done].
      assert (from3 ("XBT" ++ suffix) = suffix) as ->; [|done].
      change ("XBT" ++ suffix) with (String "X" (String "B" (String "T" suffix))).
      unfold from3. simpl. by rewrite Nat.sub_0_r, substring_all. }
    by rewrite find_variant_repeat. }
  split; [done|].
  intros [v] Hv. simpl in Hv.
  destruct (pairToKrakenSymbol_catalog v Hv) as (cur & _ & _ & ->). apply Hxbt.
Qed.

(** ** The second service against the current one *)

Lemma build_result_app (m : gmap string LTP) (ps : list Pair)
    (acc : list LTP) :
  service2.build_result m ps acc = (acc ++ service2.build_result m ps [])%list.
Proof.
  revert acc. induction ps as [|pr ps IH]; intros acc; simpl.
  - by rewrite app_nil_r.
  - destruct (m !! Value pr) as [l|]; [|apply IH].
    rewrite IH, (IH [l]). by rewrite <- app_assoc.
Qed.

Lemma build_result_length (m : gmap string LTP) (ps : list Pair) :
  (length (service2.build_result m ps []) <= length ps)%nat.
Proof.
  induction ps as [|pr ps IH]; simpl; [done|].
  destruct (m !! Value pr) as [l|]; [|lia].
  rewrite build_result_app. simpl. lia.
Qed.

Lemma build_result_In (m : gmap string LTP) (ps : list Pair) (l : LTP) :
  In l (service2.build_result m ps []) ->
  exists pr, In pr ps /\ m !! Value pr = Some l.
Proof.
  induction ps as [|pr ps IH]; simpl; [done|].
  destruct (m !! Value pr) as [l'|] eqn:E.
  - rewrite build_result_app. simpl. intros [->|Hl].
    + exists pr. by split; [left|].
    + destruct (IH Hl) as (pr' & ? & ?). exists pr'. by split; [right|].
  - intros Hl. destruct (IH Hl) as (pr' & ? & ?). exists pr'. by split; [right|].
Qed.

Lemma build_result_total (m : gmap string LTP) (ps : list Pair) :
  (forall pr, In pr ps -> is_Some (m !! Value pr)) ->
  Forall2 (fun pr l => m !! Value pr = Some l) ps
          (service2.build_result m ps []).
Proof.
  induction ps as [|pr ps IH]; intros Hall; simpl; [constructor|].
  destruct (Hall pr) as [l Hl]; [by left|]. rewrite Hl.
  rewrite build_result_app. simpl. constructor; [done|].
  apply IH. intros; apply Hall; by right.
Qed.

Lemma hit_map_lookup (looked : list (Pair * option CachedLTP))
    (m : gmap string LTP) (k : string) (l : LTP) :
  hit_map looked m !! k = Some l ->
  m !! k = Some l \/
  exists pr c, In (pr, Some c) looked /\ Value pr = k /\ Cached_LTP c = l.
Proof.
  revert m. induction looked as [|[pr [c|]] looked IH]; intros m; simpl.
  - by left.
  - intros Hl. destruct (IH _ Hl) as [Hm|(pr' & c' & ? & ? & ?)].
    + destruct (decide (Value pr = k)) as [Heq|Hne].
      * rewrite Heq, lookup_insert_eq in Hm. injection Hm as <-.
        right. exists pr, c. by split; [left|].
      * rewrite lookup_insert_ne in Hm by done. by left.
    + right. exists pr', c'. by split; [right|].
  - intros Hl. destruct (IH _ Hl) as [Hm|(pr' & c' & ? & ? & ?)]; [by left|].
    right. exists pr', c'. by split; [right|].
Qed.

Lemma hit_map_is_Some (looked : list (Pair * option CachedLTP))
    (m : gmap string LTP) (k : string) :
  is_Some (m !! k) \/ (exists pr c, In (pr, Some c) looked /\ Value pr = k) ->
  is_Some (hit_map looked m !! k).
Proof.
  revert m. induction looked as [|[pr [c|]] looked IH]; intros m; simpl.
  - intros [Hm|(? & ? & [] & _)]. done.
  - intros [Hm|(pr' & c' & [[= -> ->]|Hin] & Hk)]; apply IH.
    + left. destruct (decide (Value pr = k)) as [Heq|Hne].
      * by rewrite Heq, lookup_insert_eq.
      * by rewrite lookup_insert_ne.
    + left. by rewrite Hk, lookup_insert_eq.
    + right. by exists pr', c'.
  - intros [Hm|(pr' & c' & [[=]|Hin] & Hk)]; apply IH; [by left|].
    right. by exists pr', c'.
Qed.

Lemma fetched_map_lookup (ltps : list LTP) (m : gmap string LTP) (k : string)
    (l : LTP) :
  fetched_map ltps m !! k = Some l ->
  m !! k = Some l \/ (In l ltps /\ key l = k).
Proof.
  revert m. induction ltps as [|ltp ltps IH]; intros m; simpl; [by left|].
  intros Hl. destruct (IH _ Hl) as [Hm|[? ?]].
  - destruct (decide (key ltp = k)) as [Heq|Hne].
    + rewrite Heq, lookup_insert_eq in Hm. injection Hm as <-.
      right. by split; [left|].
    + rewrite lookup_insert_ne in Hm by done. by left.
  - right. by split; [right|].
Qed.

Lemma fetched_map_is_Some (ltps : list LTP) (m : gmap string LTP) (k : string) :
  is_Some (m !! k) \/ (exists l, In l ltps /\ key l = k) ->
  is_Some (fetched_map ltps m !! k).
Proof.
  revert m. induction ltps as [|ltp ltps IH]; intros m; simpl.
  - intros [Hm|(? & [] & _)]. done.
  - intros [Hm|(l & [->|Hin] & Hk)]; apply IH.
    + left. destruct (decide (key ltp = k)) as [Heq|Hne].
      * by rewrite Heq, lookup_insert_eq.
      * by rewrite lookup_insert_ne.
    + left. by rewrite Hk, lookup_insert_eq.
    + right. by exists l.
Qed.

Lemma In_looked_hits (looked : list (Pair * option CachedLTP)) (pr : Pair)
    (c : CachedLTP) :
  In (pr, Some c) looked -> In (Cached_LTP c) (hits looked).
Proof.
  intros Hin. unfold hits. apply in_flat_map. exists (pr, Some c).
  by split; [|left].
Qed.

Lemma In_hits_looked (looked : list (Pair * option CachedLTP)) (l : LTP) :
  In l (hits looked) ->
  exists pr c, In (pr, Some c) looked /\ Cached_LTP c = l.
Proof.
  unfold hits. intros ([pr [c|]] & Hin & Hl)%in_flat_map; simpl in Hl; [|done].
  destruct Hl as [<-|[]]. by exists pr, c.
Qed.

Lemma In_probe_pair (st : gmap string CachedLTP) (clk : nat -> Time) (n : nat)
    (pairs : list Pair) (pr : Pair) (c : CachedLTP) :
  cache_wf st -> In (pr, Some c) (probe st clk n pairs) ->
  LTP_Pair (Cached_LTP c) = pr /\ st !! Value pr = Some c.
Proof.
  intros Hwf Hin. pose proof (probe_readings st clk n pairs) as Hr.
  rewrite Forall_forall in Hr. apply list_elem_of_In, Hr in Hin.
  destruct Hin as (m & _ & Hm). simpl in Hm. symmetry in Hm.
  split; [by eapply fresh_entry_pair|]. by apply fresh_entry_Some in Hm as [? _].
Qed.

Lemma Pair_eq (p q : Pair) : Value p = Value q -> p = q.
Proof. destruct p, q. simpl. by intros ->. Qed.

Section SecondService.
Context `{strings_pkg}.
Variable ext : External.
Local Abbreviation svc3 := (NewLTPService NewInMemoryCache ext).

Lemma check_cache2_run (pairs : list Pair) (ltpMap : gmap string LTP)
    (pairsToFetch : list Pair) (w : World) :
  let looked := probe (store w) (clock w) (reads w) pairs in
  service2.check_cache svc3 pairs ltpMap pairsToFetch w =
    ((hit_map looked ltpMap, (pairsToFetch ++ misses looked)%list),
     mkWorld (store w) (clock w) (reads w + present (store w) pairs)
       (calls w ++ lookups looked)).
Proof.
  revert ltpMap pairsToFetch w.
  induction pairs as [|pr pairs IH]; intros ltpMap pairsToFetch w; simpl.
  - unfold ret, present. simpl. rewrite !app_nil_r, Nat.add_0_r. by destruct w.
  - unfold bind at 1. unfold repository_GetLTP at 1. unfold bind, record, ret.
    simpl. rewrite InMemoryCache_GetLTP_run. unfold fresh_entry, present.
    simpl.
    destruct (store w !! Value pr) as [c|] eqn:E; simpl.
    + destruct (Minute <? clock w (reads w) - Timestamp c); simpl;
        rewrite IH; simpl; unfold hit_map, misses, lookups, present; simpl;
        rewrite <- !app_assoc; simpl; do 3 f_equal; lia.
    + rewrite IH. simpl. unfold hit_map, misses, lookups, present. simpl.
      by rewrite <- !app_assoc.
Qed.

Lemma cache_fetched2_run (ltps : list LTP) (ltpMap : gmap string LTP)
    (w : World) :
  service2.cache_fetched svc3 ltps ltpMap w =
    (fetched_map ltps ltpMap,
     mkWorld (store_all (store w) (clock w) (reads w) ltps) (clock w)
       (reads w + length ltps) (calls w ++ stores ltps)).
Proof.
  revert ltpMap w.
  induction ltps as [|ltp ltps IH]; intros ltpMap w; simpl.
  - unfold ret. rewrite !app_nil_r, Nat.add_0_r. by destruct w.
  - unfold bind at 1. unfold repository_SetLTP at 1. unfold bind, record.
    simpl. rewrite IH. simpl. unfold stores. simpl.
    rewrite <- !app_assoc. simpl. do 3 f_equal. lia.
Qed.

(** One run of the second [GetLTPs] against one run of the current one. *)
Lemma GetLTPs2_run (pairsStr : string) (pairs : list Pair) (w : World) :
  ParsePairs pairsStr = Ok pairs ->
  let looked := probe (store w) (clock w) (reads w) pairs in
  LTPService_GetLTPs svc3 pairsStr w
    = (GetLTPs_result ext looked, snd (LTPService_GetLTPs svc3 pairsStr w)) /\
  service2.GetLTPs svc3 pairsStr w =
    (match GetLTPs_result ext looked with
     | Err e => Err e
     | Ok _ =>
         Ok (sort_Slice less
               (service2.build_result
                  (fetched_map (fetched ext looked) (hit_map looked ∅))
                  pairs []))
     end,
     snd (LTPService_GetLTPs svc3 pairsStr w)).
Proof.
  intros Hparse looked.
  unfold service2.GetLTPs, LTPService_GetLTPs. rewrite Hparse.
  unfold bind. rewrite check_cache_run_reads, check_cache2_run.
  fold looked. simpl.
  unfold GetLTPs_result, fetched.
  destruct (misses looked) as [|m ms] eqn:Hm; simpl; [done|].
  unfold external_GetTickers, bind, record, ret. simpl.
  destruct (GetTickers ext (m :: ms)) as [ltps|e]; simpl; [|done].
  by rewrite cache_fetched_run, cache_fetched2_run.
Qed.

Lemma GetLTPs_result_fetched (looked : list (Pair * option CachedLTP))
    (l1 : list LTP) :
  GetLTPs_result ext looked = Ok l1 ->
  l1 = sort_Slice less (hits looked ++ fetched ext looked).
Proof.
  unfold GetLTPs_result, fetched.
  destruct (misses looked) as [|m ms].
  - rewrite app_nil_r. by intros [= <-].
  - destruct (GetTickers ext (m :: ms)); [by intros [= <-]|done].
Qed.

Lemma gathered_lookup (st : gmap string CachedLTP) (clk : nat -> Time)
    (n : nat) (pairs : list Pair) (ltps : list LTP) (pr : Pair) (l : LTP) :
  let looked := probe st clk n pairs in
  fetched_map ltps (hit_map looked ∅) !! Value pr = Some l ->
  In l (hits looked ++ ltps) /\ (cache_wf st -> LTP_Pair l = pr).
Proof.
  intros looked Hl.
  destruct (fetched_map_lookup _ _ _ _ Hl) as [Hm|[Hin Hk]].
  - destruct (hit_map_lookup _ _ _ _ Hm) as [He|(pr' & c & Hin & Hv & <-)].
    + by rewrite lookup_empty in He.
    + split; [apply in_or_app; left; by eapply In_looked_hits|].
      intros Hwf. destruct (In_probe_pair _ _ _ _ _ _ Hwf Hin) as [-> _].
      by apply Pair_eq.
  - split; [apply in_or_app; by right|]. intros _. by apply Pair_eq.
Qed.

Lemma ParsePairs_Ok_length (pairsStr : string) (pairs : list Pair) :
  ParsePairs pairsStr = Ok pairs -> (length pairs <= 3)%nat.
Proof.
  intros Hok.
  destruct (ParsePairs_returns_distinct_catalog_pairs_aux _ _ Hok) as [_ Hnd].
  assert (map Value pairs ⊆+ catalog) as Hsub.
  { apply NoDup_submseteq; [done|]. intros v (pr & -> & Hpr)%list_elem_of_fmap.
    apply list_elem_of_In. eapply ParsePairs_Ok_catalog; [done|].
    by apply list_elem_of_In. }
  apply submseteq_length in Hsub. by rewrite length_map in Hsub.
Qed.

(** X19. The second [GetLTPs] (the one that gathers the quotes in a map)
    has the effects of the current one on every request and every world:
    the same lookups, the same fetch, the same writes, the same cache
    afterwards. The two fail together, with the same error; when they
    succeed, every quote the second returns the current one returns too,
    and the second returns at most three quotes, whatever the upstream
    answers. *)
Theorem second_service_same_effects (pairsStr : string) (w : World) :
  let run1 := LTPService_GetLTPs svc3 pairsStr w in
  let run2 := service2.GetLTPs svc3 pairsStr w in
  snd run2 = snd run1 /\
  match fst run1, fst run2 with
  | Ok l1, Ok l2 => (forall l, In l l2 -> In l l1) /\ (length l2 <= 3)%nat
  | Err e1, Err e2 => e1 = e2
  | _, _ => False
  end.
Proof.
  intros run1 run2. subst run1 run2.
  destruct (ParsePairs pairsStr) as [pairs|e] eqn:Hparse.
  - destruct (GetLTPs2_run pairsStr pairs w Hparse) as [H1 H2].
    apply (f_equal fst) in H1. simpl in H1. rewrite H2, H1. simpl.
    split; [done|].
    destruct (GetLTPs_result ext _) as [l1|e] eqn:Hres; [|done].
    apply GetLTPs_result_fetched in Hres as ->. split.
    + intros l Hl. apply list_elem_of_In. rewrite sort_Slice_Permutation.
      apply list_elem_of_In in Hl. rewrite sort_Slice_Permutation in Hl.
      apply list_elem_of_In in Hl. apply list_elem_of_In.
      destruct (build_result_In _ _ _ Hl) as (pr & _ & Hm).
      by apply gathered_lookup in Hm as [? _].
    + rewrite (Permutation_length (sort_Slice_Permutation less _)).
      etransitivity; [apply build_result_length|].
      by eapply ParsePairs_Ok_length.
  - unfold service2.GetLTPs, LTPService_GetLTPs. by rewrite Hparse.
Qed.

Lemma build_result_agrees (st : gmap string CachedLTP) (clk : nat -> Time)
    (n : nat) (pairs : list Pair) (ltps : list LTP) :
  let looked := probe st clk n pairs in
  cache_wf st -> NoDup (map Value pairs) ->
  Permutation (map LTP_Pair ltps) (misses looked) ->
  Permutation
    (service2.build_result (fetched_map ltps (hit_map looked ∅)) pairs [])
    (hits looked ++ ltps) /\
  NoDup (map key (hits looked ++ ltps)).
Proof.
  intros looked Hwf Hnd Hperm.
  pose proof (probe_partition st clk n pairs Hwf) as Hpart. fold looked in Hpart.
  assert (Permutation (map LTP_Pair (hits looked ++ ltps)) pairs) as Hall.
  { by rewrite List.map_app, Hperm. }
  assert (NoDup (map key (hits looked ++ ltps))) as Hndk.
  { unfold key. by rewrite <- (List.map_map LTP_Pair Value), Hall. }
  split; [|done].
  set (fm := fetched_map ltps (hit_map looked ∅)).
  assert (Forall2 (fun pr l => fm !! Value pr = Some l) pairs
            (service2.build_result fm pairs [])) as Hf2.
  { apply build_result_total. intros pr Hpr.
    assert (pr ∈ map LTP_Pair (hits looked ++ ltps))
      as (l & -> & Hl)%list_elem_of_fmap
      by (rewrite Hall; by apply list_elem_of_In).
    apply list_elem_of_In, in_app_or in Hl as [Hl|Hl].
    - apply fetched_map_is_Some. left. apply hit_map_is_Some. right.
      destruct (In_hits_looked _ _ Hl) as (pr' & c & Hin & <-).
      exists pr', c. split; [done|].
      by destruct (In_probe_pair _ _ _ _ _ _ Hwf Hin) as [-> _].
    - apply fetched_map_is_Some. right. by exists l. }
  assert (map LTP_Pair (service2.build_result fm pairs []) = pairs /\
          Forall (fun l => In l (hits looked ++ ltps))
                 (service2.build_result fm pairs [])) as [Hmap Hin].
  { assert (forall ps ls,
              Forall2 (fun pr l => fm !! Value pr = Some l) ps ls ->
              map LTP_Pair ls = ps /\
              Forall (fun l => In l (hits looked ++ ltps)) ls) as Haux;
      [|by apply Haux].
    induction 1 as [|pr l prs ls Hl _ [IH1 IH2]]; [done|].
    apply gathered_lookup in Hl as [Hl Hp]. simpl.
    split; [by rewrite (Hp Hwf), IH1|by constructor]. }
  apply submseteq_length_Permutation.
  - apply NoDup_submseteq.
    + apply (NoDup_fmap_1 LTP_Pair).
      change (NoDup (map LTP_Pair (service2.build_result fm pairs []))).
      rewrite Hmap. by apply (NoDup_fmap_1 Value).
    + intros l Hl. rewrite Forall_forall in Hin. by apply list_elem_of_In, Hin.
  - rewrite <- (length_map LTP_Pair (service2.build_result _ _ _)), Hmap.
    by rewrite <- (Permutation_length Hall), length_map.
Qed.

(** X20. On a cache whose entries sit under their own pairs, and with an
    upstream that returns one quote per requested pair, the second
    [GetLTPs] is the current one: the same result, error or list, and the
    same world afterwards, for every request. *)
Theorem second_service_agrees (pairsStr : string) (w : World) :
  cache_wf (store w) ->
  one_quote_per_pair ext catalog ->
  service2.GetLTPs svc3 pairsStr w = LTPService_GetLTPs svc3 pairsStr w.
Proof.
  intros Hwf Hext.
  destruct (ParsePairs pairsStr) as [pairs|e] eqn:Hparse.
  - destruct (GetLTPs2_run pairsStr pairs w Hparse) as [H1 H2].
    rewrite H2. etransitivity; [|symmetry; exact H1]. f_equal.
    set (looked := probe (store w) (clock w) (reads w) pairs) in *.
    destruct (GetLTPs_result ext looked) as [l1|e] eqn:Hres; [|done].
    apply GetLTPs_result_fetched in Hres as ->. f_equal.
    destruct (ParsePairs_returns_distinct_catalog_pairs_aux _ _ Hparse)
      as [_ Hnd].
    assert (Permutation (map LTP_Pair (fetched ext looked)) (misses looked))
      as Hperm.
    { unfold fetched. destruct (misses looked) as [|m ms] eqn:Hm; [done|].
      destruct (Hext (m :: ms)) as (ltps & -> & Hl); [done| |done].
      intros pr Hpr. eapply ParsePairs_Ok_catalog; [done|].
      apply list_elem_of_In.
      rewrite <- (probe_partition (store w) (clock w) (reads w) pairs Hwf).
      fold looked. rewrite Hm. apply list_elem_of_In, in_or_app. by right. }
    destruct (build_result_agrees (store w) (clock w) (reads w) pairs
                (fetched ext looked) Hwf Hnd Hperm) as [Hp Hndk].
    fold looked in Hp, Hndk.
    apply ascending_Permutation_eq.
    + apply sort_Slice_ascending. by rewrite Hp.
    + by apply sort_Slice_ascending.
    + by rewrite !sort_Slice_Permutation.
  - unfold service2.GetLTPs, LTPService_GetLTPs. by rewrite Hparse.
Qed.
End SecondService.

Lemma second_service_agrees_witness :
  let svc := NewLTPService NewInMemoryCache (quoting (S754_zero false)) in
  @service2.GetLTPs ascii_strings svc "btc/usd,btc/eur" (world1 0 Second)
    = @LTPService_GetLTPs ascii_strings svc "btc/usd,btc/eur" (world1 0 Second).
Proof.
  intros svc. apply (@second_service_agrees ascii_strings).
  - apply cache_wf_world1.
  - apply quoting_one_quote_per_pair.
Defined.
